(** * Pipeline analysis of the VectorShift backend ([backend/main.py])

    A shallow embedding of [check_dag] and [parse_pipeline], followed by
    the properties of the acyclicity check: the counts reported, the
    handling of dangling edges and duplicate ids, termination of the work
    queue, agreement with the procedure of the design document and the
    correctness of the answer with respect to cycles of the submitted
    graph. *)

From Stdlib Require Import List String ZArith Lia Bool Relations SpecFloat Permutation.
Import ListNotations.
Local Open Scope string_scope.
Local Open Scope list_scope.
Local Open Scope Z_scope.

(** ** Python values and exceptions *)

(** The payload of [Dict[str, Any]]; floats are IEEE values. *)
#[local] Unset Elimination Schemes.
Inductive PyValue : Type :=
| VNone
| VBool (b : bool)
| VInt (z : Z)
| VFloat (f : spec_float)
| VStr (s : string)
| VList (l : list PyValue)
| VDict (d : list (string * PyValue)).
#[local] Set Elimination Schemes.

(** The class of an exception object, as far as [except Exception] can
    tell: [Exception] or a class derived from it (as [KeyError] and
    [IndexError] are), or a class derived from [BaseException] only (as
    [KeyboardInterrupt], [SystemExit], [GeneratorExit] and
    [asyncio.CancelledError] are). *)
Inductive PyExcClass : Type :=
| ExceptionClass (name : string)
| BaseExceptionClass (name : string).

(** An exception object: its class and its [args]. *)
Record PyExc : Type := mkExc { exc_class : PyExcClass; exc_args : list PyValue }.

(** [isinstance(e, Exception)] *)
Definition isinstance_Exception (e : PyExc) : bool :=
  match exc_class e with
  | ExceptionClass _ => true
  | BaseExceptionClass _ => false
  end.

(** [KeyError(k)], as a failed lookup of [k] raises it. *)
Definition KeyError (k : string) : PyExc :=
  mkExc (ExceptionClass "KeyError") [VStr k].


(** Text built by an f-string. [str(e)] is kept as it is written: how
    Python renders an exception (the [repr] of the key for a [KeyError])
    is not modelled. *)
Inductive PyText : Type :=
| Literal (s : string)
| StrOf (e : PyExc)
| Concat (a b : PyText).

(** The outcome of running a piece of Python under a bound on the number
    of [while] iterations. *)
Inductive outcome (A : Type) : Type :=
| Return (a : A)
| Raise (e : PyExc)
| OutOfFuel.

Arguments Return {A} a.
Arguments Raise {A} e.
Arguments OutOfFuel {A}.

Definition bind {A B : Type} (m : outcome A) (k : A -> outcome B) : outcome B :=
  match m with
  | Return a => k a
  | Raise e => Raise e
  | OutOfFuel => OutOfFuel
  end.

Notation "x <- m ;; k" := (bind m (fun x => k))
  (at level 61, m at next level, right associativity).
Notation "' pat <- m ;; k" := (bind m (fun x => match x with pat => k end))
  (at level 61, pat pattern, m at next level, right associativity).

(** A [for] loop whose body may raise. *)
Fixpoint for_each {A S : Type} (body : S -> A -> outcome S) (l : list A) (s : S)
  : outcome S :=
  match l with
  | [] => Return s
  | a :: l' => s' <- body s a ;; for_each body l' s'
  end.

(** ** Python dictionaries with string keys

    A [dict] iterates in insertion order and assigning to a key that is
    present keeps the key where it is. *)
Module PyDict.

Definition t (V : Type) : Type := list (string * V).

Definition empty {V : Type} : t V := [].

Fixpoint get {V : Type} (d : t V) (k : string) : option V :=
  match d with
  | [] => None
  | (k', v) :: d' => if String.eqb k' k then Some v else get d' k
  end.

(** [k in d] *)
Definition contains {V : Type} (d : t V) (k : string) : bool :=
  match get d k with Some _ => true | None => false end.

(** [d[k] = v] *)
Fixpoint set {V : Type} (d : t V) (k : string) (v : V) : t V :=
  match d with
  | [] => [(k, v)]
  | (k', v') :: d' =>
      if String.eqb k' k then (k', v) :: d' else (k', v') :: set d' k v
  end.

(** [d[k]] as an expression *)
Definition getitem {V : Type} (d : t V) (k : string) : outcome V :=
  match get d k with
  | Some v => Return v
  | None => Raise (KeyError k)
  end.

(** the keys in iteration order *)
Definition keys {V : Type} (d : t V) : list string := map fst d.

End PyDict.

(** ** The request model *)

Module Node.
Record t : Type := mk {
  id : string;
  type : string;
  position : PyDict.t spec_float;
  data : PyDict.t PyValue
}.
End Node.

Module Edge.
Record t : Type := mk {
  id : string;
  source : string;
  target : string;
  sourceHandle : option string;
  targetHandle : option string
}.
End Edge.

Record PipelineRequest : Type := mkPipelineRequest {
  nodes : list Node.t;
  edges : list Edge.t
}.

(** The object returned by [parse_pipeline]. *)
Record Response : Type := mkResponse {
  num_nodes : Z;
  num_edges : Z;
  is_dag : bool
}.

Record HTTPException : Type := mkHTTPException {
  status_code : Z;
  detail : PyText
}.

(** What leaves [parse_pipeline] when it does not return: the
    [HTTPException] raised by the handler, or an exception that the
    handler does not catch. *)
Inductive Raised : Type :=
| RaisedHTTP (h : HTTPException)
| Propagated (e : PyExc).

Definition len {A : Type} (l : list A) : Z := Z.of_nat (List.length l).

(** ** [check_dag] *)

Definition Graph : Type := PyDict.t (list string).
Definition InDegree : Type := PyDict.t Z.

(** [for node in nodes: graph[node.id] = []; in_degree[node.id] = 0] *)
Definition init_node (st : Graph * InDegree) (node : Node.t) : Graph * InDegree :=
  let '(graph, in_degree) := st in
  (PyDict.set graph (Node.id node) [], PyDict.set in_degree (Node.id node) 0).

Definition init_nodes (nodes : list Node.t) : Graph * InDegree :=
  fold_left init_node nodes (PyDict.empty, PyDict.empty).

(** The body of [for edge in edges]. *)
Definition add_edge (st : Graph * InDegree) (edge : Edge.t) : outcome (Graph * InDegree) :=
  let '(graph, in_degree) := st in
  if PyDict.contains graph (Edge.source edge) && PyDict.contains graph (Edge.target edge)
  then
    adj <- PyDict.getitem graph (Edge.source edge) ;;
    let graph := PyDict.set graph (Edge.source edge) (adj ++ [Edge.target edge]) in
    d <- PyDict.getitem in_degree (Edge.target edge) ;;
    Return (graph, PyDict.set in_degree (Edge.target edge) (d + 1))
  else Return (graph, in_degree).

Definition build_graph (nodes : list Node.t) (edges : list Edge.t)
  : outcome (Graph * InDegree) :=
  for_each add_edge edges (init_nodes nodes).

(** [for node_id in in_degree: if in_degree[node_id] == 0: queue.append(node_id)] *)
Definition seed_step (in_degree : InDegree) (queue : list string) (node_id : string)
  : outcome (list string) :=
  d <- PyDict.getitem in_degree node_id ;;
  Return (if d =? 0 then queue ++ [node_id] else queue).

Definition seed_queue (in_degree : InDegree) : outcome (list string) :=
  for_each (seed_step in_degree) (PyDict.keys in_degree) [].

(** The body of [for neighbor in graph[current]]. *)
Definition visit_neighbor (st : InDegree * list string) (neighbor : string)
  : outcome (InDegree * list string) :=
  let '(in_degree, queue) := st in
  d <- PyDict.getitem in_degree neighbor ;;
  let in_degree := PyDict.set in_degree neighbor (d - 1) in
  d' <- PyDict.getitem in_degree neighbor ;;
  Return (in_degree, if d' =? 0 then queue ++ [neighbor] else queue).

(** [while queue: ...]; [fuel] bounds the number of iterations. *)
Fixpoint while_queue (fuel : nat) (graph : Graph) (in_degree : InDegree)
    (queue : list string) (processed_count : Z) : outcome Z :=
  match queue with
  | [] => Return processed_count
  | current :: queue =>
      match fuel with
      | O => OutOfFuel
      | S fuel =>
          let processed_count := processed_count + 1 in
          neighbors <- PyDict.getitem graph current ;;
          '(in_degree, queue) <- for_each visit_neighbor neighbors (in_degree, queue) ;;
          while_queue fuel graph in_degree queue processed_count
      end
  end.


(** Lines 72 to 105: the value of [processed_count] when the loop ends. *)
Definition kahn_processed (fuel : nat) (nodes : list Node.t) (edges : list Edge.t)
  : outcome Z :=
  '(graph, in_degree) <- build_graph nodes edges ;;
  queue <- seed_queue in_degree ;;
  while_queue fuel graph in_degree queue 0.

Definition is_empty {A : Type} (l : list A) : bool :=
  match l with [] => true | _ => false end.

Definition check_dag_fuel (fuel : nat) (nodes : list Node.t) (edges : list Edge.t)
  : outcome bool :=
  if is_empty nodes || is_empty edges then Return true
  else
    processed_count <- kahn_processed fuel nodes edges ;;
    Return (processed_count =? len nodes).

(** [check_dag] proper: [len(nodes)] iterations are always enough for
    the queue to empty, as is proved below. *)
Definition check_dag (nodes : list Node.t) (edges : list Edge.t) : outcome bool :=
  check_dag_fuel (List.length nodes) nodes edges.

(** ** [parse_pipeline] *)

(** [try: ... except Exception as e: raise HTTPException(500, ...)] around
    a call of the checker [chk]: an exception is caught when it is an
    instance of [Exception], and goes through otherwise. *)
Definition parse_pipeline_with
    (chk : list Node.t -> list Edge.t -> outcome bool)
    (pipeline : PipelineRequest) : option (Response + Raised) :=
  let num_nodes := len (nodes pipeline) in
  let num_edges := len (edges pipeline) in
  match chk (nodes pipeline) (edges pipeline) with
  | Return is_dag => Some (inl (mkResponse num_nodes num_edges is_dag))
  | Raise e =>
      if isinstance_Exception e
      then Some (inr (RaisedHTTP
                        (mkHTTPException 500
                           (Concat (Literal "Error parsing pipeline: ") (StrOf e)))))
      else Some (inr (Propagated e))
  | OutOfFuel => None
  end.

Definition parse_pipeline (pipeline : PipelineRequest)
  : option (Response + Raised) :=
  parse_pipeline_with check_dag pipeline.

(** ** The graph of a request *)

Definition node_ids (nodes : list Node.t) : list string := map Node.id nodes.

Definition endpoints (e : Edge.t) : string * string := (Edge.source e, Edge.target e).

(** [u -> v] is an edge of the graph when some submitted edge goes from
    [u] to [v] and both are ids of submitted nodes. *)
Definition graph_edge (nodes : list Node.t) (edges : list Edge.t) (u v : string) : Prop :=
  In u (node_ids nodes) /\ In v (node_ids nodes) /\
  exists e, In e edges /\ Edge.source e = u /\ Edge.target e = v.

Definition has_cycle (nodes : list Node.t) (edges : list Edge.t) : Prop :=
  exists v, clos_trans string (graph_edge nodes edges) v v.

(** An edge with an endpoint that is no node id. *)
Definition dangling (nodes : list Node.t) (e : Edge.t) : Prop :=
  ~ In (Edge.source e) (node_ids nodes) \/ ~ In (Edge.target e) (node_ids nodes).

(** ** The procedure of the design document

    The topological elimination as the document words it, on plain
    functions instead of dictionaries: the in-degree of every string is a
    number, the neighbours of a node are read off the list of valid
    edges, and nothing can raise. *)
Module Reference.

Definition mem (x : string) (l : list string) : bool := existsb (String.eqb x) l.

(** The node id set in insertion order: first occurrences, in request
    order. *)
Definition add_id (acc : list string) (x : string) : list string :=
  if mem x acc then acc else acc ++ [x].

Definition node_id_set (ids : list string) : list string :=
  fold_left add_id ids [].

(** The edges that reference only ids of the node set. *)
Definition valid_edges (ids : list string) (links : list (string * string))
  : list (string * string) :=
  filter (fun st => mem (fst st) ids && mem (snd st) ids) links.

(** Outgoing neighbours, in edge submission order. *)
Definition neighbors (E : list (string * string)) (u : string) : list string :=
  map snd (filter (fun st => String.eqb (fst st) u) E).

(** Count of incoming valid edges. *)
Definition in_degree (E : list (string * string)) (v : string) : Z :=
  len (filter (fun st => String.eqb (snd st) v) E).

Definition decrement (deg : string -> Z) (n : string) : string -> Z :=
  fun x => if String.eqb x n then deg x - 1 else deg x.

(** For every outgoing neighbour: decrement its in-degree and append it
    to the back of the queue if that reaches exactly 0. *)
Fixpoint visit (nbrs : list string) (deg : string -> Z) (queue : list string)
  : (string -> Z) * list string :=
  match nbrs with
  | [] => (deg, queue)
  | n :: nbrs =>
      let deg := decrement deg n in
      visit nbrs deg (if deg n =? 0 then queue ++ [n] else queue)
  end.

(** Remove the front of the queue, count it, visit its neighbours; stop
    when the queue is empty. *)
Fixpoint loop (fuel : nat) (out : string -> list string) (deg : string -> Z)
    (queue : list string) (processed : Z) : option Z :=
  match queue with
  | [] => Some processed
  | current :: queue =>
      match fuel with
      | O => None
      | S fuel =>
          let '(deg, queue) := visit (out current) deg queue in
          loop fuel out deg queue (processed + 1)
      end
  end.

(** The queue starts with every id of in-degree 0, in the order of the
    node id set. *)
Definition kahn (fuel : nat) (ids : list string) (links : list (string * string))
  : option Z :=
  let E := valid_edges ids links in
  loop fuel (neighbors E) (in_degree E)
    (filter (fun v => in_degree E v =? 0) (node_id_set ids)) 0.

Definition is_dag (fuel : nat) (nodes : list Node.t) (edges : list Edge.t)
  : option bool :=
  match nodes, edges with
  | [], _ | _, [] => Some true
  | _, _ =>
      match kahn fuel (node_ids nodes) (map endpoints edges) with
      | Some processed => Some (processed =? len nodes)
      | None => None
      end
  end.

End Reference.

(** How a run of the reference reads as an outcome of the code. *)
Definition lift {A : Type} (o : option A) : outcome A :=
  match o with Some a => Return a | None => OutOfFuel end.

(** ** Notions used in the proofs *)

(** The dictionary [d] has exactly the keys [K], in that order, and
    holds [f k] at every key [k]. *)
Definition represents {V : Type} (K : list string) (d : PyDict.t V) (f : string -> V)
  : Prop :=
  PyDict.keys d = K /\ forall k, In k K -> PyDict.get d k = Some (f k).

(** How often [v] occurs among the neighbours [ns]. *)
Definition occurrences (ns : list string) (v : string) : Z :=
  len (filter (String.eqb v) ns).

(** The in-degree of [v] that is left once the nodes of [done] have been
    processed: the edges into [v] whose source is not in [done]. *)
Definition remaining (E : list (string * string)) (done : list string) (v : string) : Z :=
  len (filter (fun st => String.eqb (snd st) v && negb (Reference.mem (fst st) done)) E).

(** [done], newest first, lists nodes so that every edge into a node
    comes from a node processed before it. *)
Fixpoint topological (E : list (string * string)) (done : list string) : Prop :=
  match done with
  | [] => True
  | v :: done' => (forall u, In (u, v) E -> In u done') /\ topological E done'
  end.

(** The invariant of the work queue: [done] holds the nodes processed so
    far, newest first. *)
Record kahn_inv (K : list string) (E : list (string * string))
    (done : list string) (deg : string -> Z) (queue : list string) : Prop := {
  inv_nodup_done : NoDup done;
  inv_nodup_queue : NoDup queue;
  inv_disjoint : forall v, In v queue -> ~ In v done;
  inv_nodes : forall v, In v queue \/ In v done -> In v K;
  inv_deg : forall v, deg v = remaining E done v;
  inv_zero : forall v, In v queue \/ In v done -> deg v = 0;
  inv_seen : forall v, In v K -> deg v = 0 -> In v queue \/ In v done;
  inv_topo : topological E done
}.

(** ** Sample requests *)

Definition sample_node (id : string) : Node.t :=
  Node.mk id "customInput" [("x", S754_zero false); ("y", S754_zero false)] [].

Definition sample_edge (source target : string) : Edge.t :=
  Edge.mk ("e-" ++ source ++ "-" ++ target)%string source target None None.



(** ** Quantities read off a request and off the built mappings *)

(** The test of line 83 on the submitted ids: both ends are node ids. *)
Definition is_valid (nodes : list Node.t) (e : Edge.t) : bool :=
  Reference.mem (Edge.source e) (node_ids nodes) &&
  Reference.mem (Edge.target e) (node_ids nodes).

(** The sum of the values of [in_degree]. *)
Definition total_in_degree (in_degree : InDegree) : Z :=
  fold_right Z.add 0 (map snd in_degree).

(** The sum of the lengths of the adjacency lists of [graph]. *)
Definition total_adjacency (graph : Graph) : Z :=
  fold_right Z.add 0 (map (fun kv => len (snd kv)) graph).

(** The place of [v] in [l], counted from the end and from 1; 0 when [v]
    is not in [l]. *)
Fixpoint rank_in (l : list string) (v : string) : nat :=
  match l with
  | [] => O
  | x :: l' => if String.eqb x v then S (List.length l') else rank_in l' v
  end.

(** ** Requests derived from a request *)

(** The same edge in the other direction. *)
Definition reverse_edge (e : Edge.t) : Edge.t :=
  Edge.mk (Edge.id e) (Edge.target e) (Edge.source e)
          (Edge.sourceHandle e) (Edge.targetHandle e).

(** The same node and the same edge under new ids. *)
Definition rename_node (f : string -> string) (n : Node.t) : Node.t :=
  Node.mk (f (Node.id n)) (Node.type n) (Node.position n) (Node.data n).

Definition rename_edge (f : string -> string) (e : Edge.t) : Edge.t :=
  Edge.mk (Edge.id e) (f (Edge.source e)) (f (Edge.target e))
          (Edge.sourceHandle e) (Edge.targetHandle e).

(** * Proofs *)

(** ** Lists of strings *)

Lemma mem_In (x : string) (l : list string) : Reference.mem x l = true <-> In x l.
Proof.
  unfold Reference.mem. rewrite existsb_exists. split.
  - intros (y & Hy & E). apply String.eqb_eq in E. now subst.
  - intros H. exists x. split; [assumption | apply String.eqb_refl].
Qed.

Lemma mem_false (x : string) (l : list string) : Reference.mem x l = false <-> ~ In x l.
Proof.
  rewrite <- mem_In. destruct (Reference.mem x l); split; congruence.
Qed.

Lemma mem_ext (x : string) (l l' : list string) :
  (forall y, In y l <-> In y l') -> Reference.mem x l = Reference.mem x l'.
Proof.
  intros H. destruct (Reference.mem x l') eqn:E.
  - apply mem_In. apply H. now apply mem_In.
  - apply mem_false. intros Hx. apply H in Hx. apply mem_In in Hx. congruence.
Qed.

Lemma add_id_In (acc : list string) (x y : string) :
  In y (Reference.add_id acc x) <-> In y acc \/ y = x.
Proof.
  unfold Reference.add_id. destruct (Reference.mem x acc) eqn:E.
  - apply mem_In in E. split; [tauto | intros [H | ->]; assumption].
  - rewrite in_app_iff. simpl. intuition auto.
Qed.

Lemma add_id_NoDup (acc : list string) (x : string) :
  NoDup acc -> NoDup (Reference.add_id acc x).
Proof.
  intros H. unfold Reference.add_id. destruct (Reference.mem x acc) eqn:E; [assumption |].
  apply mem_false in E.
  apply NoDup_rev in H. rewrite <- (rev_involutive (acc ++ [x])).
  apply NoDup_rev. rewrite rev_app_distr. simpl. constructor; [| assumption].
  now rewrite <- in_rev.
Qed.

Lemma add_id_length (acc : list string) (x : string) :
  (List.length (Reference.add_id acc x) <= S (List.length acc))%nat.
Proof.
  unfold Reference.add_id. destruct (Reference.mem x acc); [lia |].
  rewrite length_app. simpl. lia.
Qed.

Lemma fold_add_id (ids acc : list string) :
  let K := fold_left Reference.add_id ids acc in
  (NoDup acc -> NoDup K) /\
  (forall y, In y K <-> In y acc \/ In y ids) /\
  (List.length K <= List.length acc + List.length ids)%nat.
Proof.
  revert acc. induction ids as [| x ids IH]; intros acc; simpl.
  - repeat split; auto; try tauto; lia.
  - destruct (IH (Reference.add_id acc x)) as (H1 & H2 & H3). split; [| split].
    + intros H. apply H1. now apply add_id_NoDup.
    + intros y. rewrite H2, add_id_In. split.
      * intros [[H | H] | H]; auto.
      * intros [H | [H | H]]; auto.
    + pose proof (add_id_length acc x). lia.
Qed.

Lemma node_id_set_NoDup (ids : list string) : NoDup (Reference.node_id_set ids).
Proof. apply (fold_add_id ids []). constructor. Qed.

Lemma node_id_set_In (ids : list string) (y : string) :
  In y (Reference.node_id_set ids) <-> In y ids.
Proof.
  unfold Reference.node_id_set. destruct (fold_add_id ids []) as (_ & H & _).
  rewrite H. simpl. tauto.
Qed.

Lemma node_id_set_length (ids : list string) :
  (List.length (Reference.node_id_set ids) <= List.length ids)%nat.
Proof. destruct (fold_add_id ids []) as (_ & _ & H). exact H. Qed.

Lemma node_id_set_length_NoDup (ids : list string) :
  NoDup ids -> List.length (Reference.node_id_set ids) = List.length ids.
Proof.
  intros H. apply Nat.le_antisymm; [apply node_id_set_length |].
  apply NoDup_incl_length; [assumption |].
  intros y Hy. now apply node_id_set_In.
Qed.

Lemma node_id_set_length_dup (ids : list string) :
  ~ NoDup ids -> (List.length (Reference.node_id_set ids) < List.length ids)%nat.
Proof.
  intros H.
  destruct (Nat.lt_ge_cases (List.length (Reference.node_id_set ids)) (List.length ids))
    as [Hlt | Hge]; [assumption | exfalso].
  apply H. apply (@NoDup_incl_NoDup _ (Reference.node_id_set ids)).
  - apply node_id_set_NoDup.
  - assumption.
  - intros y Hy. now apply node_id_set_In.
Qed.

(** ** Dictionaries *)

Lemma get_set_same {V : Type} (d : PyDict.t V) (k : string) (v : V) :
  PyDict.get (PyDict.set d k v) k = Some v.
Proof.
  induction d as [| [k' v'] d IH]; simpl.
  - now rewrite String.eqb_refl.
  - destruct (String.eqb k' k) eqn:E; simpl; rewrite E; [reflexivity | exact IH].
Qed.

Lemma get_set_other {V : Type} (d : PyDict.t V) (k k' : string) (v : V) :
  k' <> k -> PyDict.get (PyDict.set d k v) k' = PyDict.get d k'.
Proof.
  intros Hne. induction d as [| [k0 v0] d IH]; simpl.
  - destruct (String.eqb k k') eqn:E; [| reflexivity].
    apply String.eqb_eq in E. congruence.
  - destruct (String.eqb k0 k) eqn:E; simpl.
    + apply String.eqb_eq in E. subst k0.
      destruct (String.eqb k k') eqn:E'; [| reflexivity].
      apply String.eqb_eq in E'. congruence.
    + now rewrite IH.
Qed.

Lemma keys_set {V : Type} (d : PyDict.t V) (k : string) (v : V) :
  PyDict.keys (PyDict.set d k v) = Reference.add_id (PyDict.keys d) k.
Proof.
  unfold Reference.add_id, PyDict.keys.
  induction d as [| [k' v'] d IH]; simpl; [reflexivity |].
  rewrite (String.eqb_sym k k'). destruct (String.eqb k' k) eqn:E; simpl; [reflexivity |].
  rewrite IH. now destruct (Reference.mem k (map fst d)).
Qed.

Lemma keys_set_present {V : Type} (d : PyDict.t V) (k : string) (v : V) :
  In k (PyDict.keys d) -> PyDict.keys (PyDict.set d k v) = PyDict.keys d.
Proof.
  intros H. rewrite keys_set. unfold Reference.add_id.
  apply mem_In in H. now rewrite H.
Qed.

Lemma get_None {V : Type} (d : PyDict.t V) (k : string) :
  ~ In k (PyDict.keys d) -> PyDict.get d k = None.
Proof.
  induction d as [| [k' v'] d IH]; simpl; [reflexivity |].
  intros H. destruct (String.eqb k' k) eqn:E.
  - apply String.eqb_eq in E. tauto.
  - apply IH. tauto.
Qed.

Lemma represents_contains {V : Type} (K : list string) (d : PyDict.t V) (f : string -> V)
    (k : string) :
  represents K d f -> PyDict.contains d k = Reference.mem k K.
Proof.
  intros [HK Hf]. unfold PyDict.contains. destruct (Reference.mem k K) eqn:E.
  - apply mem_In in E. now rewrite (Hf k E).
  - apply mem_false in E. rewrite get_None; [reflexivity | now rewrite HK].
Qed.

Lemma represents_getitem {V : Type} (K : list string) (d : PyDict.t V) (f : string -> V)
    (k : string) :
  represents K d f -> In k K -> PyDict.getitem d k = Return (f k).
Proof.
  intros [_ Hf] Hk. unfold PyDict.getitem. now rewrite (Hf k Hk).
Qed.

Lemma represents_ext {V : Type} (K : list string) (d : PyDict.t V) (f f' : string -> V) :
  (forall k, f k = f' k) -> represents K d f -> represents K d f'.
Proof.
  intros Hext [HK Hf]. split; [assumption |].
  intros k Hk. rewrite <- Hext. now apply Hf.
Qed.

Lemma represents_set {V : Type} (K : list string) (d : PyDict.t V) (f : string -> V)
    (k : string) (v : V) :
  represents K d f -> In k K ->
  represents K (PyDict.set d k v) (fun x => if String.eqb x k then v else f x).
Proof.
  intros [HK Hf] Hk. split.
  - rewrite keys_set_present; [assumption | now rewrite HK].
  - intros x Hx. destruct (String.eqb x k) eqn:E.
    + apply String.eqb_eq in E. subst x. apply get_set_same.
    + apply String.eqb_neq in E. rewrite get_set_other; auto.
Qed.

(** ** Building the graph *)

Lemma represents_set_new {V : Type} (K : list string) (d : PyDict.t V) (k : string) (v : V) :
  represents K d (fun _ => v) ->
  represents (Reference.add_id K k) (PyDict.set d k v) (fun _ => v).
Proof.
  intros [HK Hf]. split; [now rewrite keys_set, HK |].
  intros x Hx. apply add_id_In in Hx.
  destruct (String.eqb x k) eqn:E.
  - apply String.eqb_eq in E. subst x. apply get_set_same.
  - apply String.eqb_neq in E. rewrite get_set_other by assumption.
    apply Hf. tauto.
Qed.

Lemma fold_init_node (nodes : list Node.t) :
  forall (graph : Graph) (in_degree : InDegree) (acc : list string),
    represents acc graph (fun _ => []) -> represents acc in_degree (fun _ => 0) ->
    let K := fold_left Reference.add_id (node_ids nodes) acc in
    exists graph' in_degree',
      fold_left init_node nodes (graph, in_degree) = (graph', in_degree') /\
      represents K graph' (fun _ => []) /\ represents K in_degree' (fun _ => 0).
Proof.
  induction nodes as [| n nodes IH]; intros g d acc G D; simpl.
  - exists g, d. auto.
  - apply IH; now apply represents_set_new.
Qed.

Lemma init_nodes_represents (nodes : list Node.t) :
  let K := Reference.node_id_set (node_ids nodes) in
  exists graph in_degree,
    init_nodes nodes = (graph, in_degree) /\
    represents K graph (fun _ => []) /\ represents K in_degree (fun _ => 0).
Proof.
  apply fold_init_node; (split; [reflexivity | intros k []]).
Qed.

Lemma neighbors_cons (s t : string) (E : list (string * string)) (u : string) :
  Reference.neighbors ((s, t) :: E) u =
  if String.eqb s u then t :: Reference.neighbors E u else Reference.neighbors E u.
Proof. unfold Reference.neighbors. simpl. now destruct (String.eqb s u). Qed.

Lemma in_degree_cons (s t : string) (E : list (string * string)) (v : string) :
  Reference.in_degree ((s, t) :: E) v =
  if String.eqb t v then Reference.in_degree E v + 1 else Reference.in_degree E v.
Proof.
  unfold Reference.in_degree, len. simpl. destruct (String.eqb t v); simpl; lia.
Qed.

Lemma add_edges_represents (K : list string) (es : list Edge.t) :
  forall (graph : Graph) (in_degree : InDegree) (A : string -> list string) (D : string -> Z),
    represents K graph A -> represents K in_degree D ->
    let E := Reference.valid_edges K (map endpoints es) in
    exists graph' in_degree',
      for_each add_edge es (graph, in_degree) = Return (graph', in_degree') /\
      represents K graph' (fun u => A u ++ Reference.neighbors E u) /\
      represents K in_degree' (fun v => D v + Reference.in_degree E v).
Proof.
  induction es as [| e es IH]; intros g d A D HG HD; simpl.
  - exists g, d. split; [reflexivity |]. split.
    + eapply represents_ext; [| exact HG]. intros k. simpl. now rewrite app_nil_r.
    + eapply represents_ext; [| exact HD]. intros k. unfold Reference.in_degree, len. simpl. lia.
  - rewrite !(represents_contains K g A) by assumption.
    destruct (Reference.mem (Edge.source e) K) eqn:Es; simpl; [| now apply IH].
    destruct (Reference.mem (Edge.target e) K) eqn:Et; simpl; [| now apply IH].
    apply mem_In in Es, Et.
    rewrite (represents_getitem K g A _ HG Es). simpl.
    rewrite (represents_getitem K d D _ HD Et). simpl.
    destruct (IH _ _ _ _
                (represents_set K g A _ (A (Edge.source e) ++ [Edge.target e]) HG Es)
                (represents_set K d D _ (D (Edge.target e) + 1) HD Et))
      as (g' & d' & Hrun & HG' & HD').
    exists g', d'. split; [exact Hrun |]. split.
    + eapply represents_ext; [| exact HG']. intros k. simpl.
      unfold endpoints.
      rewrite neighbors_cons, (String.eqb_sym (Edge.source e) k).
      destruct (String.eqb k (Edge.source e)) eqn:Ek.
      * apply String.eqb_eq in Ek. subst k. now rewrite <- app_assoc.
      * reflexivity.
    + eapply represents_ext; [| exact HD']. intros k. simpl.
      unfold endpoints.
      rewrite in_degree_cons, (String.eqb_sym (Edge.target e) k).
      destruct (String.eqb k (Edge.target e)) eqn:Ek.
      * apply String.eqb_eq in Ek. subst k. lia.
      * reflexivity.
Qed.

Lemma valid_edges_node_id_set (ids : list string) (links : list (string * string)) :
  Reference.valid_edges (Reference.node_id_set ids) links = Reference.valid_edges ids links.
Proof.
  unfold Reference.valid_edges. apply filter_ext. intros [s t]. simpl.
  now rewrite !(mem_ext _ _ _ (node_id_set_In ids)).
Qed.

Lemma build_graph_represents (nodes : list Node.t) (edges : list Edge.t) :
  let K := Reference.node_id_set (node_ids nodes) in
  let E := Reference.valid_edges (node_ids nodes) (map endpoints edges) in
  exists graph in_degree,
    build_graph nodes edges = Return (graph, in_degree) /\
    represents K graph (Reference.neighbors E) /\
    represents K in_degree (Reference.in_degree E).
Proof.
  intros K E. unfold build_graph.
  destruct (init_nodes_represents nodes) as (g & d & -> & HG & HD).
  destruct (add_edges_represents _ edges _ _ _ _ HG HD) as (g' & d' & Hrun & HG' & HD').
  exists g', d'. split; [exact Hrun |].
  cbv zeta in HG', HD'. rewrite valid_edges_node_id_set in HG', HD'.
  subst K E. split.
  - eapply represents_ext; [| exact HG']. reflexivity.
  - eapply represents_ext; [| exact HD']. intros k. simpl. lia.
Qed.

(** ** The work queue simulates the reference *)

Lemma seed_steps (K : list string) (in_degree : InDegree) (f : string -> Z) :
  represents K in_degree f ->
  forall (l queue : list string), incl l K ->
    for_each (seed_step in_degree) l queue =
    Return (queue ++ filter (fun v => f v =? 0) l).
Proof.
  intros HD. induction l as [| x l IH]; intros q Hl; simpl.
  - now rewrite app_nil_r.
  - unfold seed_step at 1.
    rewrite (represents_getitem K in_degree f x HD) by (apply Hl; now left).
    simpl. rewrite IH by (intros y Hy; apply Hl; now right).
    destruct (f x =? 0); [now rewrite <- app_assoc | reflexivity].
Qed.

Lemma seed_queue_represents (K : list string) (in_degree : InDegree) (f : string -> Z) :
  represents K in_degree f ->
  seed_queue in_degree = Return (filter (fun v => f v =? 0) K).
Proof.
  intros HD. unfold seed_queue. destruct HD as [HK Hf] eqn:E. clear E.
  rewrite HK. apply (seed_steps K in_degree f (conj HK Hf) K []). apply incl_refl.
Qed.

Lemma represents_decrement (K : list string) (in_degree : InDegree) (f : string -> Z)
    (n : string) :
  represents K in_degree f -> In n K ->
  represents K (PyDict.set in_degree n (f n - 1)) (Reference.decrement f n).
Proof.
  intros HD Hn. eapply represents_ext; [| apply (represents_set K in_degree f n (f n - 1) HD Hn)].
  intros k. unfold Reference.decrement. simpl.
  destruct (String.eqb k n) eqn:E; [| reflexivity].
  apply String.eqb_eq in E. now subst.
Qed.

Lemma visit_represents (K : list string) (ns : list string) :
  forall (in_degree : InDegree) (f : string -> Z) (queue : list string),
    represents K in_degree f -> incl ns K ->
    exists in_degree',
      for_each visit_neighbor ns (in_degree, queue) =
      Return (in_degree', snd (Reference.visit ns f queue)) /\
      represents K in_degree' (fst (Reference.visit ns f queue)).
Proof.
  induction ns as [| n ns IH]; intros d f q HD Hns; simpl.
  - exists d. auto.
  - assert (Hn : In n K) by (apply Hns; now left).
    pose proof (represents_decrement K d f n HD Hn) as HD1.
    rewrite (represents_getitem K d f n HD Hn). simpl.
    rewrite (represents_getitem K _ _ n HD1 Hn). simpl.
    apply IH; [exact HD1 |]. intros y Hy. apply Hns. now right.
Qed.

Lemma visit_queue_In (ns : list string) :
  forall (deg : string -> Z) (queue : list string) (x : string),
    In x (snd (Reference.visit ns deg queue)) -> In x queue \/ In x ns.
Proof.
  induction ns as [| n ns IH]; intros deg q x; simpl; [tauto |].
  intros H. apply IH in H. destruct H as [H | H]; [| tauto].
  destruct (Reference.decrement deg n n =? 0); [| tauto].
  apply in_app_iff in H. simpl in H. intuition auto.
Qed.

Lemma while_queue_refines (K : list string) (graph : Graph) (out : string -> list string) :
  represents K graph out ->
  (forall k, In k K -> incl (out k) K) ->
  forall (fuel : nat) (in_degree : InDegree) (f : string -> Z) (queue : list string) (c : Z),
    represents K in_degree f -> incl queue K ->
    while_queue fuel graph in_degree queue c = lift (Reference.loop fuel out f queue c).
Proof.
  intros HG Hout. induction fuel as [| fuel IH]; intros d f q c HD Hq.
  - destruct q; reflexivity.
  - destruct q as [| cur q]; [reflexivity |]. simpl.
    assert (Hcur : In cur K) by (apply Hq; now left).
    rewrite (represents_getitem K graph out cur HG Hcur). simpl.
    destruct (visit_represents K (out cur) d f q HD (Hout cur Hcur)) as (d' & -> & HD').
    simpl. destruct (Reference.visit (out cur) f q) as [f' q'] eqn:Ev. simpl in *.
    apply IH; [exact HD' |].
    intros x Hx. pose proof (visit_queue_In (out cur) f q x) as Hin.
    rewrite Ev in Hin. destruct (Hin Hx) as [H | H].
    + apply Hq. now right.
    + now apply (Hout cur Hcur).
Qed.

Lemma valid_edges_In (ids : list string) (links : list (string * string)) (u v : string) :
  In (u, v) (Reference.valid_edges ids links) <-> In (u, v) links /\ In u ids /\ In v ids.
Proof.
  unfold Reference.valid_edges. rewrite filter_In. simpl.
  rewrite andb_true_iff, !mem_In. tauto.
Qed.

Lemma neighbors_In (E : list (string * string)) (u v : string) :
  In v (Reference.neighbors E u) <-> In (u, v) E.
Proof.
  unfold Reference.neighbors. rewrite in_map_iff. split.
  - intros ([s t] & <- & H). apply filter_In in H. destruct H as [H Hs].
    simpl in *. apply String.eqb_eq in Hs. now subst.
  - intros H. exists (u, v). split; [reflexivity |].
    apply filter_In. split; [assumption | apply String.eqb_refl].
Qed.

(** The loop of [check_dag] and the loop of the reference give the same
    count, or run out of fuel together. *)
Lemma kahn_processed_refines (fuel : nat) (nodes : list Node.t) (edges : list Edge.t) :
  kahn_processed fuel nodes edges =
  lift (Reference.kahn fuel (node_ids nodes) (map endpoints edges)).
Proof.
  unfold kahn_processed, Reference.kahn.
  destruct (build_graph_represents nodes edges) as (g & d & -> & HG & HD). simpl.
  rewrite (seed_queue_represents _ d _ HD). simpl.
  apply (while_queue_refines _ g _ HG).
  - intros k Hk v Hv. apply neighbors_In, valid_edges_In in Hv.
    apply node_id_set_In. tauto.
  - exact HD.
  - intros v Hv. apply filter_In in Hv. tauto.
Qed.

(** ** Counting neighbours and remaining in-degrees *)

Lemma len_cons {A : Type} (x : A) (l : list A) : len (x :: l) = len l + 1.
Proof. unfold len. simpl List.length. lia. Qed.

Lemma len_nonneg {A : Type} (l : list A) : 0 <= len l.
Proof. unfold len. lia. Qed.

Lemma len_zero {A : Type} (l : list A) : len l = 0 -> l = [].
Proof. destruct l; [reflexivity |]. rewrite len_cons. pose proof (len_nonneg l). lia. Qed.

Lemma occurrences_cons (n : string) (ns : list string) (v : string) :
  occurrences (n :: ns) v = (if String.eqb v n then 1 else 0) + occurrences ns v.
Proof.
  unfold occurrences. simpl. destruct (String.eqb v n); [rewrite len_cons |]; lia.
Qed.

Lemma occurrences_nonneg (ns : list string) (v : string) : 0 <= occurrences ns v.
Proof. apply len_nonneg. Qed.

Lemma occurrences_pos_In (ns : list string) (v : string) :
  1 <= occurrences ns v -> In v ns.
Proof.
  unfold occurrences. intros H.
  destruct (filter (String.eqb v) ns) as [| x l] eqn:E; [unfold len in H; simpl in H; lia |].
  assert (Hx : In x (filter (String.eqb v) ns)) by (rewrite E; now left).
  apply filter_In in Hx. destruct Hx as [Hx Hv]. apply String.eqb_eq in Hv. now subst.
Qed.

(** What a visit of the neighbours [ns] does: every in-degree drops by
    the number of occurrences among [ns], and the nodes appended are, once
    each, those whose in-degree passes through 0. *)
Lemma visit_spec (ns : list string) :
  forall (deg : string -> Z) (queue : list string),
    (forall v, fst (Reference.visit ns deg queue) v = deg v - occurrences ns v) /\
    exists added,
      snd (Reference.visit ns deg queue) = queue ++ added /\
      NoDup added /\
      forall v, In v added <-> 1 <= deg v <= occurrences ns v.
Proof.
  induction ns as [| n ns IH]; intros deg q.
  - simpl. split; [intros v; unfold occurrences, len; simpl; lia |].
    exists []. split; [now rewrite app_nil_r |]. split; [constructor |].
    intros v. unfold occurrences, len. simpl. split; [tauto | lia].
  - simpl.
    destruct (IH (Reference.decrement deg n)
                 (if Reference.decrement deg n n =? 0 then q ++ [n] else q))
      as (Hdeg & added & Hq & Hnd & Hadd).
    assert (Hdec : forall v, Reference.decrement deg n v =
                             deg v - (if String.eqb v n then 1 else 0)).
    { intros v. unfold Reference.decrement. destruct (String.eqb v n); lia. }
    split.
    + intros v. rewrite Hdeg, Hdec, occurrences_cons. lia.
    + assert (Hnn : Reference.decrement deg n n = deg n - 1)
        by (rewrite Hdec, String.eqb_refl; reflexivity).
      rewrite Hnn in *.
      destruct (Z.eqb_spec (deg n - 1) 0) as [Hz | Hz].
      * exists (n :: added). split; [now rewrite Hq, <- app_assoc |]. split.
        -- constructor; [| exact Hnd]. rewrite Hadd, Hnn. lia.
        -- intros v. simpl. rewrite Hadd, Hdec, occurrences_cons.
           pose proof (occurrences_nonneg ns v).
           destruct (String.eqb_spec v n) as [-> | Hne].
           ++ split; [intros _; lia | now left].
           ++ split; [intros [-> | H']; [congruence | lia] | intros H'; right; lia].
      * exists added. split; [exact Hq |]. split; [exact Hnd |].
        intros v. rewrite Hadd, Hdec, occurrences_cons.
        destruct (String.eqb_spec v n) as [-> | Hne]; lia.
Qed.

Lemma remaining_nonneg (E : list (string * string)) (done : list string) (v : string) :
  0 <= remaining E done v.
Proof. apply len_nonneg. Qed.

Lemma remaining_nil (E : list (string * string)) (v : string) :
  remaining E [] v = Reference.in_degree E v.
Proof.
  unfold remaining, Reference.in_degree. f_equal. apply filter_ext.
  intros [s t]. simpl. apply andb_true_r.
Qed.

Lemma remaining_edge (s t : string) (E : list (string * string)) (done : list string)
    (v : string) :
  remaining ((s, t) :: E) done v =
  (if String.eqb t v && negb (Reference.mem s done) then 1 else 0) + remaining E done v.
Proof.
  unfold remaining. simpl.
  destruct (String.eqb t v && negb (Reference.mem s done)); [rewrite len_cons |]; lia.
Qed.

Lemma mem_cons (x y : string) (l : list string) :
  Reference.mem x (y :: l) = String.eqb x y || Reference.mem x l.
Proof. reflexivity. Qed.

Lemma remaining_cons (E : list (string * string)) (done : list string) (cur v : string) :
  ~ In cur done ->
  remaining E done v =
  remaining E (cur :: done) v + occurrences (Reference.neighbors E cur) v.
Proof.
  intros Hcur. induction E as [| [s t] E IH].
  - reflexivity.
  - rewrite neighbors_cons, !remaining_edge, mem_cons, IH.
    destruct (String.eqb_spec s cur) as [-> | Hne].
    + apply mem_false in Hcur. rewrite Hcur, occurrences_cons, (String.eqb_sym v t).
      cbn [andb negb orb]. destruct (String.eqb t v); cbn [andb negb orb]; lia.
    + cbn [andb negb orb]. lia.
Qed.

Lemma remaining_zero (E : list (string * string)) (done : list string) (v : string) :
  remaining E done v = 0 -> forall u, In (u, v) E -> In u done.
Proof.
  intros H u Hu. apply len_zero in H.
  destruct (Reference.mem u done) eqn:Em; [now apply mem_In |].
  assert (Hin : In (u, v) (filter (fun st => String.eqb (snd st) v &&
                                             negb (Reference.mem (fst st) done)) E)).
  { apply filter_In. split; [assumption |]. simpl. now rewrite String.eqb_refl, Em. }
  rewrite H in Hin. destruct Hin.
Qed.

Lemma remaining_pos (E : list (string * string)) (done : list string) (v : string) :
  remaining E done v <> 0 -> exists u, In (u, v) E /\ ~ In u done.
Proof.
  unfold remaining. intros H.
  destruct (filter _ E) as [| [s t] l] eqn:Ef; [now contradiction H |].
  assert (Hin : In (s, t) (filter (fun st => String.eqb (snd st) v &&
                                             negb (Reference.mem (fst st) done)) E))
    by (rewrite Ef; now left).
  apply filter_In in Hin. destruct Hin as [Hin Hc]. simpl in Hc.
  apply andb_true_iff in Hc. destruct Hc as [Ht Hs].
  apply String.eqb_eq in Ht. subst t. exists s. split; [assumption |].
  apply mem_false. now destruct (Reference.mem s done).
Qed.

(** ** Orders and cycles *)

Section Cycles.

Variable R : string -> string -> Prop.

Lemma clos_trans_sub (R' : string -> string -> Prop) :
  (forall a b, R' a b -> clos_trans string R a b) ->
  forall a b, clos_trans string R' a b -> clos_trans string R a b.
Proof.
  intros Hsub a b H. induction H as [a b H | a b c _ IH1 _ IH2].
  - now apply Hsub.
  - now apply t_trans with b.
Qed.

End Cycles.

(** A non-empty finite set in which every node has a predecessor inside
    the set contains a cycle. *)
Lemma no_source_cycle (n : nat) :
  forall (U : list string) (R : string -> string -> Prop),
    (List.length U <= n)%nat -> U <> [] ->
    (forall v, In v U -> exists u, In u U /\ R u v) ->
    exists w, clos_trans string R w w.
Proof.
  induction n as [| n IH]; intros U R Hlen Hne Hpred.
  - destruct U; [congruence | simpl in Hlen; lia].
  - destruct U as [| v0 U0]; [congruence |]. clear Hne.
    destruct (Hpred v0 (or_introl eq_refl)) as (u0 & Hu0 & Ru0).
    destruct (string_dec u0 v0) as [-> | Hu0ne]; [exists v0; now apply t_step |].
    set (U' := filter (fun x => negb (String.eqb x v0)) U0).
    assert (HU' : forall x, In x U' <-> In x (v0 :: U0) /\ x <> v0).
    { intros x. unfold U'. rewrite filter_In, negb_true_iff, String.eqb_neq. simpl.
      split; [tauto |]. intros [[-> | Hx] Hx']; [congruence | tauto]. }
    set (R' := fun a b => R a b \/ (R a v0 /\ R v0 b)).
    assert (Hu0' : In u0 U') by (apply HU'; tauto).
    destruct (IH U' R') as (w & Hw).
    + unfold U'. pose proof (filter_length_le (fun x => negb (String.eqb x v0)) U0).
      simpl in Hlen. lia.
    + intros E. rewrite E in Hu0'. destruct Hu0'.
    + intros v Hv. apply HU' in Hv. destruct Hv as [Hv Hvne].
      destruct (Hpred v Hv) as (u & Hu & Ru).
      destruct (string_dec u v0) as [-> | Hune].
      * exists u0. split; [assumption |]. right. tauto.
      * exists u. split; [apply HU'; tauto | now left].
    + exists w. apply (clos_trans_sub R R'); [| exact Hw].
      intros a b [Hab | [Ha Hb]]; [now apply t_step |].
      apply t_trans with v0; now apply t_step.
Qed.

Section Kahn.

Variable K : list string.
Variable E : list (string * string).
Hypothesis endpoints_in_K : forall u v, In (u, v) E -> In u K /\ In v K.

Lemma topological_closed (l : list string) :
  topological E l ->
  forall u w, clos_trans string (fun a b => In (a, b) E) u w -> In w l -> In u l.
Proof.
  intros Ht u w H. revert Ht. induction H as [u w H | u y w _ IH1 _ IH2]; intros Ht Hw.
  - revert Hw. induction l as [| x l IHl]; simpl in *; [tauto |].
    destruct Ht as [Hx Ht]. intros [-> | Hw]; [right; now apply Hx | right; now apply IHl].
  - auto.
Qed.

Lemma topological_acyclic (l : list string) :
  topological E l -> NoDup l ->
  forall v, In v l -> ~ clos_trans string (fun a b => In (a, b) E) v v.
Proof.
  induction l as [| x l IH]; intros Ht Hnd v Hv Hc; [destruct Hv |].
  destruct Ht as [Hx Ht]. inversion Hnd as [| ? ? Hxl Hnd']. subst.
  destruct Hv as [-> | Hv]; [| now apply (IH Ht Hnd' v Hv)].
  apply clos_trans_tn1 in Hc. inversion Hc as [Hstep | y ? Hlast Hrest]; subst.
  - apply Hxl. now apply Hx.
  - apply Hxl. apply (topological_closed l Ht v y).
    + now apply clos_tn1_trans.
    + now apply Hx.
Qed.

Lemma kahn_inv_init :
  NoDup K ->
  kahn_inv K E [] (Reference.in_degree E)
    (filter (fun v => Reference.in_degree E v =? 0) K).
Proof.
  intros HK. constructor.
  - constructor.
  - now apply NoDup_filter.
  - intros v _ [].
  - intros v [Hv | []]. apply filter_In in Hv. tauto.
  - intros v. now rewrite remaining_nil.
  - intros v [Hv | []]. apply filter_In in Hv. now apply Z.eqb_eq.
  - intros v Hv Hz. left. apply filter_In. split; [assumption |].
    now apply Z.eqb_eq.
  - exact I.
Qed.

Lemma kahn_inv_step (done : list string) (deg : string -> Z) (cur : string)
    (queue : list string) :
  kahn_inv K E done deg (cur :: queue) ->
  kahn_inv K E (cur :: done)
    (fst (Reference.visit (Reference.neighbors E cur) deg queue))
    (snd (Reference.visit (Reference.neighbors E cur) deg queue)).
Proof.
  intros [Hnd Hnq Hdis Hnodes Hdeg Hzero Hseen Htopo].
  destruct (visit_spec (Reference.neighbors E cur) deg queue)
    as (Hdeg' & added & -> & Hnadd & Hadd).
  set (deg' := fst (Reference.visit (Reference.neighbors E cur) deg queue)) in *.
  assert (Hcur : ~ In cur done) by (apply Hdis; now left).
  assert (Hrem : forall v, deg' v = remaining E (cur :: done) v).
  { intros v. rewrite Hdeg', Hdeg, (remaining_cons E done cur v Hcur). lia. }
  assert (Hold : forall v, In v (cur :: queue) \/ In v done -> deg' v = 0).
  { intros v Hv. pose proof (Hzero v Hv) as Hz.
    pose proof (remaining_nonneg E (cur :: done) v).
    pose proof (occurrences_nonneg (Reference.neighbors E cur) v).
    rewrite <- Hrem in *. rewrite Hdeg' in *. lia. }
  assert (Hnew : forall v, In v added -> 1 <= deg v /\ deg' v = 0).
  { intros v Hv. apply Hadd in Hv.
    pose proof (remaining_nonneg E (cur :: done) v).
    rewrite <- Hrem in *. rewrite Hdeg' in *. lia. }
  inversion Hnq as [| ? ? Hcq Hnq']. subst.
  constructor.
  - constructor; assumption.
  - apply NoDup_app; [assumption | assumption |].
    intros v Hv Hv'. apply Hnew in Hv'.
    assert (deg v = 0) by (apply Hzero; left; now right). lia.
  - intros v Hv [<- | Hv'].
    + apply in_app_iff in Hv. destruct Hv as [Hv | Hv]; [contradiction |].
      apply Hnew in Hv. assert (deg cur = 0) by (apply Hzero; left; now left). lia.
    + apply in_app_iff in Hv. destruct Hv as [Hv | Hv].
      * apply (Hdis v); [now right | assumption].
      * apply Hnew in Hv. assert (deg v = 0) by (apply Hzero; now right). lia.
  - intros v [Hv | [<- | Hv]].
    + apply in_app_iff in Hv. destruct Hv as [Hv | Hv].
      * apply Hnodes. left. now right.
      * apply Hadd in Hv.
        assert (Hin : In v (Reference.neighbors E cur))
          by (apply occurrences_pos_In; lia).
        apply neighbors_In in Hin. now apply (endpoints_in_K cur v).
    + apply Hnodes. left. now left.
    + apply Hnodes. now right.
  - exact Hrem.
  - intros v [Hv | [<- | Hv]].
    + apply in_app_iff in Hv. destruct Hv as [Hv | Hv].
      * apply Hold. left. now right.
      * now apply Hnew.
    + apply Hold. left. now left.
    + apply Hold. now right.
  - intros v Hv Hz.
    destruct (Z.eq_dec (deg v) 0) as [Hd | Hd].
    + destruct (Hseen v Hv Hd) as [[<- | Hq] | Hq].
      * right. now left.
      * left. apply in_app_iff. now left.
      * right. now right.
    + left. apply in_app_iff. right. apply Hadd.
      pose proof (remaining_nonneg E done v). rewrite <- Hdeg in *.
      rewrite Hdeg' in Hz. lia.
  - split; [| assumption].
    apply remaining_zero. rewrite <- Hdeg. apply Hzero. left. now left.
Qed.

(** The loop runs to the end within [length K] iterations and leaves a
    topological order of the nodes it processed. *)
Lemma loop_runs (fuel : nat) :
  forall (done : list string) (deg : string -> Z) (queue : list string),
    kahn_inv K E done deg queue ->
    (List.length K <= fuel + List.length done)%nat ->
    exists done',
      Reference.loop fuel (Reference.neighbors E) deg queue (len done) = Some (len done') /\
      NoDup done' /\ incl done' K /\ topological E done' /\
      (forall v, In v K -> remaining E done' v = 0 -> In v done').
Proof.
  induction fuel as [| fuel IH]; intros done deg queue Hinv Hfuel.
  - destruct queue as [| cur queue].
    + exists done. simpl. destruct Hinv. repeat split; auto.
      * intros v Hv. apply inv_nodes0. now right.
      * intros v Hv Hz. rewrite <- inv_deg0 in Hz.
        destruct (inv_seen0 v Hv Hz) as [[] | H]. exact H.
    + exfalso. pose proof (kahn_inv_step done deg cur queue Hinv) as Hstep.
      destruct Hstep as [Hnd _ _ Hnodes _ _ _ _].
      assert (List.length (cur :: done) <= List.length K)%nat.
      { apply NoDup_incl_length; [assumption |]. intros v Hv. apply Hnodes. now right. }
      simpl in *. lia.
  - destruct queue as [| cur queue].
    + exists done. simpl. destruct Hinv. repeat split; auto.
      * intros v Hv. apply inv_nodes0. now right.
      * intros v Hv Hz. rewrite <- inv_deg0 in Hz.
        destruct (inv_seen0 v Hv Hz) as [[] | H]. exact H.
    + simpl. pose proof (kahn_inv_step done deg cur queue Hinv) as Hstep.
      destruct (Reference.visit (Reference.neighbors E cur) deg queue) as [deg' queue'].
      simpl in Hstep. rewrite <- (len_cons cur done). apply IH; [exact Hstep |]. simpl. lia.
Qed.

End Kahn.

Lemma loop_fuel_mono (out : string -> list string) (fuel : nat) :
  forall (deg : string -> Z) (queue : list string) (c r : Z),
    Reference.loop fuel out deg queue c = Some r ->
    forall fuel', (fuel <= fuel')%nat -> Reference.loop fuel' out deg queue c = Some r.
Proof.
  induction fuel as [| fuel IH]; intros deg queue c r Hrun fuel' Hle.
  - destruct queue; [| discriminate]. destruct fuel'; exact Hrun.
  - destruct queue as [| cur queue]; [destruct fuel'; exact Hrun |].
    destruct fuel' as [| fuel']; [lia |]. simpl in *.
    destruct (Reference.visit (out cur) deg queue) as [deg' queue'].
    apply (IH _ _ _ _ Hrun). lia.
Qed.

Lemma clos_trans_target_in (K : list string) (E : list (string * string)) :
  (forall u v, In (u, v) E -> In u K /\ In v K) ->
  forall a b, clos_trans string (fun u v => In (u, v) E) a b -> In b K.
Proof.
  intros HE a b H. induction H as [a b H | a b c _ _ _ IH]; [| exact IH].
  now apply (HE a b).
Qed.

(** The reference on a node set [K] without repetitions: it stops within
    [length K] iterations, and it has processed all of [K] exactly when
    the edges [E] have no cycle. *)
Lemma reference_loop_correct (K : list string) (E : list (string * string)) :
  NoDup K ->
  (forall u v, In (u, v) E -> In u K /\ In v K) ->
  exists c,
    (forall fuel, (List.length K <= fuel)%nat ->
       Reference.loop fuel (Reference.neighbors E) (Reference.in_degree E)
         (filter (fun v => Reference.in_degree E v =? 0) K) 0 = Some c) /\
    0 <= c <= len K /\
    (c = len K <-> ~ exists w, clos_trans string (fun u v => In (u, v) E) w w).
Proof.
  intros HK HE.
  destruct (loop_runs K E HE (List.length K) [] _ _ (kahn_inv_init K E HK))
    as (done & Hrun & Hnd & Hincl & Htopo & Hall); [simpl; lia |].
  change (len (@nil string)) with 0 in Hrun.
  assert (Hlen : (List.length done <= List.length K)%nat) by now apply NoDup_incl_length.
  exists (len done). split; [| split].
  - intros fuel Hfuel. now apply (loop_fuel_mono _ _ _ _ _ _ Hrun).
  - unfold len. lia.
  - split.
    + intros Hc (w & Hw).
      assert (HKd : incl K done).
      { apply NoDup_length_incl; [assumption | unfold len in Hc; lia | assumption]. }
      apply (topological_acyclic E done Htopo Hnd w); [| exact Hw].
      apply HKd. now apply (clos_trans_target_in K E HE w w).
    + intros Hacyclic.
      set (U := filter (fun v => negb (Reference.mem v done)) K).
      assert (HU : forall v, In v U <-> In v K /\ ~ In v done).
      { intros v. unfold U. now rewrite filter_In, negb_true_iff, mem_false. }
      destruct U as [| v0 U0] eqn:EU.
      * assert (HKd : incl K done).
        { intros v Hv. destruct (Reference.mem v done) eqn:Em; [now apply mem_In |].
          apply mem_false in Em. destruct (proj2 (HU v) (conj Hv Em)). }
        pose proof (NoDup_incl_length HK HKd). unfold len. lia.
      * exfalso. apply Hacyclic.
        apply (no_source_cycle (List.length U) U); [lia | rewrite EU; discriminate |].
        rewrite EU. intros v Hv. apply HU in Hv. destruct Hv as [Hv Hvd].
        destruct (remaining_pos E done v) as (u & Hu & Hud).
        { intros Hz. apply Hvd. now apply Hall. }
        exists u. split; [| exact Hu]. apply HU. split; [| exact Hud].
        now apply (HE u v).
Qed.

(** ** Cycles of the request and cycles of its valid edges *)

Lemma graph_edge_valid (nodes : list Node.t) (edges : list Edge.t) (u v : string) :
  graph_edge nodes edges u v <->
  In (u, v) (Reference.valid_edges (node_ids nodes) (map endpoints edges)).
Proof.
  rewrite valid_edges_In, in_map_iff. unfold graph_edge, endpoints. split.
  - intros (Hu & Hv & e & He & Hs & Ht). subst. split; [| tauto].
    exists e. tauto.
  - intros ((e & Heq & He) & Hu & Hv). inversion Heq. subst.
    split; [assumption |]. split; [assumption |]. exists e. tauto.
Qed.

Lemma has_cycle_valid (nodes : list Node.t) (edges : list Edge.t) :
  has_cycle nodes edges <->
  exists w, clos_trans string
              (fun u v => In (u, v) (Reference.valid_edges (node_ids nodes)
                                       (map endpoints edges))) w w.
Proof.
  unfold has_cycle. split; intros (w & Hw); exists w.
  - apply (clos_trans_sub _ (graph_edge nodes edges)); [| exact Hw].
    intros a b Hab. apply t_step. now apply graph_edge_valid.
  - apply (clos_trans_sub (graph_edge nodes edges)) in Hw; [exact Hw |].
    intros a b Hab. apply t_step. now apply graph_edge_valid.
Qed.

(** ** The processed count of [check_dag] *)

(** Whatever the request, the loop of [check_dag] ends within
    [len(nodes)] iterations without raising; the count it leaves is at most
    the number of distinct ids and reaches it exactly when the graph has
    no cycle. *)
Lemma kahn_processed_spec (nodes : list Node.t) (edges : list Edge.t) :
  let K := Reference.node_id_set (node_ids nodes) in
  exists c,
    (forall fuel, (List.length nodes <= fuel)%nat ->
       kahn_processed fuel nodes edges = Return c) /\
    0 <= c <= len K /\
    (c = len K <-> ~ has_cycle nodes edges).
Proof.
  intros K.
  set (E := Reference.valid_edges (node_ids nodes) (map endpoints edges)).
  assert (HE : forall u v, In (u, v) E -> In u K /\ In v K).
  { intros u v H. apply valid_edges_In in H. unfold K. rewrite !node_id_set_In. tauto. }
  destruct (reference_loop_correct K E (node_id_set_NoDup _) HE) as (c & Hrun & Hc & Hiff).
  exists c. split; [| split; [exact Hc |]].
  - intros fuel Hfuel. rewrite kahn_processed_refines. unfold Reference.kahn.
    fold E. fold K. rewrite Hrun; [reflexivity |].
    pose proof (node_id_set_length (node_ids nodes)). unfold node_ids in *.
    rewrite length_map in *. fold (node_ids nodes) in *. fold K in H. lia.
  - rewrite Hiff. now rewrite has_cycle_valid.
Qed.

(** ** Small facts about [check_dag] *)

Lemma for_each_app {A S : Type} (body : S -> A -> outcome S) (l1 l2 : list A) (s : S) :
  for_each body (l1 ++ l2) s = (s' <- for_each body l1 s ;; for_each body l2 s').
Proof.
  revert s. induction l1 as [| a l1 IH]; intros s; simpl; [reflexivity |].
  destruct (body s a); simpl; auto.
Qed.

Lemma clos_trans_has_step (R : string -> string -> Prop) (a b : string) :
  clos_trans string R a b -> exists x y, R x y.
Proof. intros H. induction H as [a b H | a b c _ IH _ _]; [now exists a, b | exact IH]. Qed.

Lemma has_cycle_edge (nodes : list Node.t) (edges : list Edge.t) :
  has_cycle nodes edges ->
  exists e, In e edges /\ In (Edge.source e) (node_ids nodes) /\
            In (Edge.target e) (node_ids nodes).
Proof.
  intros (w & Hw). apply clos_trans_has_step in Hw.
  destruct Hw as (x & y & Hx & Hy & e & He & <- & <-). now exists e.
Qed.

Lemma length_node_ids (nodes : list Node.t) :
  List.length (node_ids nodes) = List.length nodes.
Proof. apply length_map. Qed.

(** [check_dag] gives an answer on every request, and the same one for
    every bound of at least [len(nodes)] iterations. *)
Lemma check_dag_fuel_returns (nodes : list Node.t) (edges : list Edge.t) :
  exists b c,
    (forall fuel, (List.length nodes <= fuel)%nat ->
       check_dag_fuel fuel nodes edges = Return b /\
       kahn_processed fuel nodes edges = Return c) /\
    0 <= c <= len (Reference.node_id_set (node_ids nodes)) /\
    (c = len (Reference.node_id_set (node_ids nodes)) <-> ~ has_cycle nodes edges) /\
    (is_empty nodes || is_empty edges = false -> b = (c =? len nodes)) /\
    (is_empty nodes || is_empty edges = true -> b = true).
Proof.
  destruct (kahn_processed_spec nodes edges) as (c & Hrun & Hc & Hiff).
  exists (if is_empty nodes || is_empty edges then true else c =? len nodes), c.
  split; [| split; [exact Hc | split; [exact Hiff |]]].
  - intros fuel Hfuel. split; [| now apply Hrun].
    unfold check_dag_fuel. destruct (is_empty nodes || is_empty edges); [reflexivity |].
    now rewrite (Hrun fuel Hfuel).
  - destruct (is_empty nodes || is_empty edges); split; congruence.
Qed.

(** ** Sample runs *)

Example chain_is_dag :
  parse_pipeline (mkPipelineRequest
                    [sample_node "A"; sample_node "B"; sample_node "C"]
                    [sample_edge "A" "B"; sample_edge "B" "C"]) =
  Some (inl (mkResponse 3 2 true)).
Proof. reflexivity. Qed.

Example triangle_is_not_dag :
  check_dag [sample_node "A"; sample_node "B"; sample_node "C"]
            [sample_edge "A" "B"; sample_edge "B" "C"; sample_edge "C" "A"] =
  Return false.
Proof. reflexivity. Qed.

Example diamond_is_dag :
  check_dag [sample_node "A"; sample_node "B"; sample_node "C"; sample_node "D"]
            [sample_edge "A" "B"; sample_edge "A" "C";
             sample_edge "B" "D"; sample_edge "C" "D"] =
  Return true.
Proof. reflexivity. Qed.

Example duplicate_id_keeps_first_position :
  build_graph [sample_node "A"; sample_node "B"; sample_node "A"]
              [sample_edge "A" "B"; sample_edge "A" "B"; sample_edge "B" "Z"] =
  Return ([("A", ["B"; "B"]); ("B", [])], [("A", 0); ("B", 2)]).
Proof. reflexivity. Qed.

(** * The claims *)

(** C1. For a request whose node ids are pairwise distinct, the analysis
    returns [is_dag = true] if and only if the graph on the node ids whose
    edges are the submitted edges with both endpoints among the node ids
    has no cycle; and that is the case exactly when the processed counter
    of the elimination equals the number of nodes. *)
Theorem check_dag_iff_acyclic (pipeline : PipelineRequest) :
  NoDup (node_ids (nodes pipeline)) ->
  exists b c,
    parse_pipeline pipeline =
      Some (inl (mkResponse (len (nodes pipeline)) (len (edges pipeline)) b)) /\
    check_dag (nodes pipeline) (edges pipeline) = Return b /\
    kahn_processed (List.length (nodes pipeline)) (nodes pipeline) (edges pipeline) = Return c /\
    (b = true <-> ~ has_cycle (nodes pipeline) (edges pipeline)) /\
    (c = len (nodes pipeline) <-> ~ has_cycle (nodes pipeline) (edges pipeline)).
Proof.
  destruct pipeline as [ns es]. simpl. intros Hnd.
  destruct (check_dag_fuel_returns ns es) as (b & c & Hrun & Hc & Hiff & Hb & Hb').
  destruct (Hrun (List.length ns) (Nat.le_refl _)) as [Hchk Hk].
  assert (HK : len (Reference.node_id_set (node_ids ns)) = len ns).
  { unfold len. now rewrite node_id_set_length_NoDup, length_node_ids. }
  rewrite HK in *.
  exists b, c. unfold parse_pipeline, parse_pipeline_with, check_dag. simpl.
  rewrite Hchk. repeat split; try assumption; try tauto.
  - intros Hbt. destruct (is_empty ns || is_empty es) eqn:Eempty.
    + intros Hcyc. apply has_cycle_edge in Hcyc. destruct Hcyc as (e & He & Hs & _).
      destruct ns; [destruct Hs |]. destruct es; [destruct He | discriminate].
    + rewrite (Hb eq_refl) in Hbt. apply Z.eqb_eq in Hbt. tauto.
  - intros Hacyc. destruct (is_empty ns || is_empty es) eqn:Eempty; [auto |].
    rewrite (Hb eq_refl). apply Z.eqb_eq. tauto.
Qed.

Lemma check_dag_iff_acyclic_witness :
  NoDup (node_ids [sample_node "A"; sample_node "B"; sample_node "C"]) /\
  exists b c,
    parse_pipeline (mkPipelineRequest
                      [sample_node "A"; sample_node "B"; sample_node "C"]
                      [sample_edge "A" "B"; sample_edge "B" "C"]) =
      Some (inl (mkResponse 3 2 b)) /\
    check_dag [sample_node "A"; sample_node "B"; sample_node "C"]
              [sample_edge "A" "B"; sample_edge "B" "C"] = Return b /\
    kahn_processed 3 [sample_node "A"; sample_node "B"; sample_node "C"]
              [sample_edge "A" "B"; sample_edge "B" "C"] = Return c /\
    (b = true <-> ~ has_cycle [sample_node "A"; sample_node "B"; sample_node "C"]
                              [sample_edge "A" "B"; sample_edge "B" "C"]) /\
    (c = 3 <-> ~ has_cycle [sample_node "A"; sample_node "B"; sample_node "C"]
                           [sample_edge "A" "B"; sample_edge "B" "C"]).
Proof.
  assert (H : NoDup (node_ids [sample_node "A"; sample_node "B"; sample_node "C"])).
  { simpl. repeat constructor; simpl; intuition discriminate. }
  split; [exact H |].
  exact (check_dag_iff_acyclic
           (mkPipelineRequest [sample_node "A"; sample_node "B"; sample_node "C"]
                              [sample_edge "A" "B"; sample_edge "B" "C"]) H).
Defined.

(** C2. On every request the success output has [num_nodes] equal to the
    length of the node array and [num_edges] equal to the length of the
    edge array, duplicate ids and dangling edges included; no request
    makes [parse_pipeline] fail. *)
Theorem parse_pipeline_counts (pipeline : PipelineRequest) :
  exists r,
    parse_pipeline pipeline = Some (inl r) /\
    num_nodes r = len (nodes pipeline) /\
    num_edges r = len (edges pipeline).
Proof.
  destruct (check_dag_fuel_returns (nodes pipeline) (edges pipeline))
    as (b & c & Hrun & _).
  destruct (Hrun (List.length (nodes pipeline)) (Nat.le_refl _)) as [Hchk _].
  exists (mkResponse (len (nodes pipeline)) (len (edges pipeline)) b).
  unfold parse_pipeline, parse_pipeline_with, check_dag. rewrite Hchk. auto.
Qed.

Lemma add_edge_dangling (K : list string) (graph : Graph) (in_degree : InDegree)
    (A : string -> list string) (e : Edge.t) :
  represents K graph A ->
  ~ In (Edge.source e) K \/ ~ In (Edge.target e) K ->
  add_edge (graph, in_degree) e = Return (graph, in_degree).
Proof.
  intros HG Hd. unfold add_edge.
  rewrite !(represents_contains K graph A) by assumption.
  destruct Hd as [Hd | Hd]; apply mem_false in Hd; rewrite Hd;
    [reflexivity | now rewrite andb_false_r].
Qed.

(** X14. An edge whose source or target is no node id is dropped
    without an error: the adjacency and in-degree mappings are those built
    without it. When the node ids are pairwise distinct, nodes with one
    dangling edge and no other edge give [is_dag = true]. *)
Theorem dangling_edge_dropped (nodes : list Node.t) (es1 es2 : list Edge.t) (e : Edge.t) :
  dangling nodes e ->
  build_graph nodes (es1 ++ e :: es2) = build_graph nodes (es1 ++ es2) /\
  (exists graph in_degree, build_graph nodes (es1 ++ e :: es2) = Return (graph, in_degree)) /\
  (NoDup (node_ids nodes) -> check_dag nodes [e] = Return true).
Proof.
  intros Hd.
  assert (Heq : build_graph nodes (es1 ++ e :: es2) = build_graph nodes (es1 ++ es2)).
  { unfold build_graph. rewrite !for_each_app.
    destruct (init_nodes_represents nodes) as (g & d & -> & HG & HD).
    destruct (add_edges_represents _ es1 _ _ _ _ HG HD) as (g' & d' & -> & HG' & _).
    cbn [bind for_each]. rewrite (add_edge_dangling _ g' d' _ e HG'); [reflexivity |].
    unfold dangling in Hd. now rewrite !node_id_set_In. }
  split; [exact Heq |]. split.
  - rewrite Heq. destruct (build_graph_represents nodes (es1 ++ es2)) as (g & d & H & _).
    now exists g, d.
  - intros Hnd.
    destruct (check_dag_fuel_returns nodes [e]) as (b & c & Hrun & Hc & Hiff & Hb & Hb').
    destruct (Hrun (List.length nodes) (Nat.le_refl _)) as [Hchk _].
    unfold check_dag. rewrite Hchk. f_equal.
    destruct (is_empty nodes || is_empty [e]) eqn:Eempty; [now apply Hb' |].
    rewrite (Hb eq_refl). apply Z.eqb_eq.
    replace (len nodes) with (len (Reference.node_id_set (node_ids nodes)))
      by (unfold len; now rewrite node_id_set_length_NoDup, length_node_ids).
    apply Hiff. intros Hcyc. apply has_cycle_edge in Hcyc.
    destruct Hcyc as (e' & [<- | []] & Hs & Ht). destruct Hd; contradiction.
Qed.

Lemma dangling_edge_dropped_witness :
  dangling [sample_node "A"; sample_node "B"] (sample_edge "X" "A") /\
  build_graph [sample_node "A"; sample_node "B"]
              ([sample_edge "A" "B"] ++ sample_edge "X" "A" :: []) =
    build_graph [sample_node "A"; sample_node "B"] ([sample_edge "A" "B"] ++ []) /\
  check_dag [sample_node "A"; sample_node "B"] [sample_edge "X" "A"] = Return true.
Proof.
  assert (Hd : dangling [sample_node "A"; sample_node "B"] (sample_edge "X" "A")).
  { left. simpl. intuition discriminate. }
  assert (Hnd : NoDup (node_ids [sample_node "A"; sample_node "B"])).
  { simpl. repeat constructor; simpl; intuition discriminate. }
  split; [exact Hd |].
  pose proof (dangling_edge_dropped [sample_node "A"; sample_node "B"]
                [sample_edge "A" "B"] [] (sample_edge "X" "A") Hd) as (H1 & _ & H3).
  split; [exact H1 | exact (H3 Hnd)].
Defined.

(** C3. The claim fails on the code where two nodes share an id: two
    nodes ["A"], which no edge joins, and the one dangling edge
    ["X" -> "Y"] give [is_dag = false], although the graph has no cycle
    and the same nodes without the edge give [true]. *)
Lemma dangling_edge_duplicate_ids_false :
  dangling [sample_node "A"; sample_node "A"] (sample_edge "X" "Y") /\
  check_dag [sample_node "A"; sample_node "A"] [sample_edge "X" "Y"] = Return false /\
  check_dag [sample_node "A"; sample_node "A"] [sample_edge "X" "Y"] <> Return true /\
  ~ has_cycle [sample_node "A"; sample_node "A"] [sample_edge "X" "Y"] /\
  check_dag [sample_node "A"; sample_node "A"] [] = Return true.
Proof.
  split; [| split; [| split; [| split]]].
  - left. simpl. intuition discriminate.
  - reflexivity.
  - discriminate.
  - intros Hc. apply has_cycle_edge in Hc. destruct Hc as (e & [<- | []] & Hs & _).
    simpl in Hs. intuition discriminate.
  - reflexivity.
Qed.

(** C4. With an empty node list, and with an empty edge list, the checker
    answers [true] at once: no iteration of the work queue is needed, and
    the mappings are not built. *)
Theorem check_dag_trivial :
  (forall fuel edges, check_dag_fuel fuel [] edges = Return true) /\
  (forall fuel nodes, check_dag_fuel fuel nodes [] = Return true) /\
  (forall edges, check_dag [] edges = Return true) /\
  (forall nodes, check_dag nodes [] = Return true).
Proof.
  assert (H : forall fuel nodes, check_dag_fuel fuel nodes [] = Return true).
  { intros fuel nodes. unfold check_dag_fuel. now destruct nodes. }
  repeat split; intros; try reflexivity; apply H.
Qed.

(** C5. When two nodes share an id and there is at least one edge,
    [check_dag] returns [False], whatever the edges: the processed counter
    stays below [len(nodes)], which counts the duplicates. *)
Theorem duplicate_ids_not_dag (nodes : list Node.t) (edges : list Edge.t) :
  ~ NoDup (node_ids nodes) -> edges <> [] ->
  check_dag nodes edges = Return false /\
  exists c, kahn_processed (List.length nodes) nodes edges = Return c /\ c < len nodes.
Proof.
  intros Hdup Hedges.
  destruct (check_dag_fuel_returns nodes edges) as (b & c & Hrun & Hc & _ & Hb & _).
  destruct (Hrun (List.length nodes) (Nat.le_refl _)) as [Hchk Hk].
  pose proof (node_id_set_length_dup (node_ids nodes) Hdup) as Hlt.
  rewrite length_node_ids in Hlt.
  assert (Hc' : c < len nodes) by (unfold len in *; lia).
  split; [| now exists c].
  unfold check_dag. rewrite Hchk. f_equal. rewrite Hb.
  - apply Z.eqb_neq. lia.
  - destruct nodes; [exfalso; apply Hdup; constructor |].
    destruct edges; [congruence | reflexivity].
Qed.

Lemma duplicate_ids_not_dag_witness :
  ~ NoDup (node_ids [sample_node "A"; sample_node "A"; sample_node "B"]) /\
  [sample_edge "A" "B"] <> [] /\
  check_dag [sample_node "A"; sample_node "A"; sample_node "B"] [sample_edge "A" "B"]
    = Return false.
Proof.
  assert (Hdup : ~ NoDup (node_ids [sample_node "A"; sample_node "A"; sample_node "B"])).
  { simpl. intros H. inversion H as [| x l Hin _]. apply Hin. now left. }
  assert (Hne : [sample_edge "A" "B"] <> []) by discriminate.
  split; [exact Hdup |]. split; [exact Hne |].
  exact (proj1 (duplicate_ids_not_dag
                  [sample_node "A"; sample_node "A"; sample_node "B"]
                  [sample_edge "A" "B"] Hdup Hne)).
Defined.

(** C6. One node and one edge from that node to itself: the edge is
    valid, it gives the node in-degree 1, the queue starts empty, nothing
    is processed and the answer is [is_dag = false]. *)
Theorem self_loop_not_dag (n : Node.t) (e : Edge.t) :
  Edge.source e = Node.id n -> Edge.target e = Node.id n ->
  build_graph [n] [e] = Return ([(Node.id n, [Node.id n])], [(Node.id n, 1)]) /\
  seed_queue [(Node.id n, 1)] = Return [] /\
  (forall fuel, kahn_processed fuel [n] [e] = Return 0) /\
  check_dag [n] [e] = Return false.
Proof.
  intros Hs Ht.
  assert (Hb : build_graph [n] [e] = Return ([(Node.id n, [Node.id n])], [(Node.id n, 1)])).
  { unfold build_graph, init_nodes, add_edge, PyDict.contains, PyDict.getitem. simpl.
    rewrite Hs, Ht. simpl. rewrite !String.eqb_refl. reflexivity. }
  assert (Hq : seed_queue [(Node.id n, 1)] = Return []).
  { unfold seed_queue, seed_step, PyDict.getitem. simpl. now rewrite String.eqb_refl. }
  assert (Hk : forall fuel, kahn_processed fuel [n] [e] = Return 0).
  { intros fuel. unfold kahn_processed. rewrite Hb. simpl. rewrite Hq. simpl.
    now destruct fuel. }
  repeat split; try assumption.
  unfold check_dag, check_dag_fuel. simpl. now rewrite Hk.
Qed.

Lemma self_loop_not_dag_witness :
  Edge.source (sample_edge "A" "A") = Node.id (sample_node "A") /\
  Edge.target (sample_edge "A" "A") = Node.id (sample_node "A") /\
  check_dag [sample_node "A"] [sample_edge "A" "A"] = Return false.
Proof.
  split; [reflexivity |]. split; [reflexivity |].
  exact (proj2 (proj2 (proj2 (self_loop_not_dag (sample_node "A") (sample_edge "A" "A")
                                eq_refl eq_refl)))).
Defined.

Lemma check_dag_fuel_refines (fuel : nat) (nodes : list Node.t) (edges : list Edge.t) :
  check_dag_fuel fuel nodes edges = lift (Reference.is_dag fuel nodes edges).
Proof.
  unfold check_dag_fuel, Reference.is_dag.
  destruct nodes as [| n ns]; [reflexivity |].
  destruct edges as [| e es]; [reflexivity |].
  cbn [is_empty orb]. rewrite kahn_processed_refines.
  now destruct (Reference.kahn fuel (node_ids (n :: ns)) (map endpoints (e :: es))).
Qed.





Lemma reference_is_dag_ext (fuel : nat) (nodes1 nodes2 : list Node.t)
    (edges1 edges2 : list Edge.t) :
  node_ids nodes1 = node_ids nodes2 ->
  map endpoints edges1 = map endpoints edges2 ->
  Reference.is_dag fuel nodes1 edges1 = Reference.is_dag fuel nodes2 edges2.
Proof.
  intros Hn He.
  assert (Hlen : len nodes1 = len nodes2).
  { unfold len. now rewrite <- (length_node_ids nodes1), Hn, length_node_ids. }
  unfold Reference.is_dag.
  destruct nodes1 as [| n1 ns1], nodes2 as [| n2 ns2]; try discriminate Hn;
    [reflexivity |].
  destruct edges1 as [| e1 es1], edges2 as [| e2 es2]; try discriminate He;
    [reflexivity |].
  now rewrite Hn, He, Hlen.
Qed.

(** C8. The answer depends only on the node ids and on the source and
    target of the edges: two requests with the same sequence of node ids and
    the same sequence of (source, target) pairs get the same [is_dag],
    whatever their types, positions, data, edge ids and handles. *)
Theorem is_dag_depends_on_ids_only (nodes1 nodes2 : list Node.t)
    (edges1 edges2 : list Edge.t) :
  map Node.id nodes1 = map Node.id nodes2 ->
  map (fun e => (Edge.source e, Edge.target e)) edges1 =
  map (fun e => (Edge.source e, Edge.target e)) edges2 ->
  check_dag nodes1 edges1 = check_dag nodes2 edges2 /\
  forall fuel, check_dag_fuel fuel nodes1 edges1 = check_dag_fuel fuel nodes2 edges2.
Proof.
  intros Hn He.
  assert (H : forall fuel,
             check_dag_fuel fuel nodes1 edges1 = check_dag_fuel fuel nodes2 edges2).
  { intros fuel. rewrite !check_dag_fuel_refines. f_equal.
    now apply reference_is_dag_ext. }
  split; [| exact H]. unfold check_dag.
  replace (List.length nodes2) with (List.length nodes1); [apply H |].
  rewrite <- (length_node_ids nodes1), <- (length_node_ids nodes2).
  unfold node_ids. now rewrite Hn.
Qed.

Lemma is_dag_depends_on_ids_only_witness :
  check_dag [sample_node "A"; sample_node "B"] [sample_edge "A" "B"; sample_edge "B" "A"] =
  check_dag [Node.mk "A" "llm" [("x", S754_infinity true)] [("k", VList [VInt 1; VNone])];
             Node.mk "B" "text" [] [("name", VStr "out")]]
            [Edge.mk "first" "A" "B" (Some "A-out") None;
             Edge.mk "second" "B" "A" None (Some "A-in")].
Proof.
  exact (proj1 (is_dag_depends_on_ids_only
                  [sample_node "A"; sample_node "B"]
                  [Node.mk "A" "llm" [("x", S754_infinity true)] [("k", VList [VInt 1; VNone])];
                   Node.mk "B" "text" [] [("name", VStr "out")]]
                  [sample_edge "A" "B"; sample_edge "B" "A"]
                  [Edge.mk "first" "A" "B" (Some "A-out") None;
                   Edge.mk "second" "B" "A" None (Some "A-in")]
                  eq_refl eq_refl)).
Defined.




(** C10. [check_dag] terminates on every node list and edge list: the
    work queue is empty after at most [len(nodes)] iterations, because an
    id enters the queue at most once, so that the number of iterations,
    which is the processed counter, is at most the number of distinct ids. *)
Theorem check_dag_terminates (nodes : list Node.t) (edges : list Edge.t) :
  exists b c,
    (forall fuel, (List.length nodes <= fuel)%nat ->
       check_dag_fuel fuel nodes edges = Return b /\
       kahn_processed fuel nodes edges = Return c) /\
    check_dag nodes edges = Return b /\
    0 <= c <= len (Reference.node_id_set (node_ids nodes)) /\
    len (Reference.node_id_set (node_ids nodes)) <= len nodes.
Proof.
  destruct (check_dag_fuel_returns nodes edges) as (b & c & Hrun & Hc & _).
  exists b, c. split; [exact Hrun |]. split; [| split; [exact Hc |]].
  - apply (Hrun (List.length nodes) (Nat.le_refl _)).
  - pose proof (node_id_set_length (node_ids nodes)) as H.
    rewrite length_node_ids in H. unfold len. lia.
Qed.

Lemma check_dag_terminates_witness :
  exists b c,
    check_dag_fuel 7 [sample_node "A"; sample_node "B"; sample_node "A"]
                     [sample_edge "A" "B"; sample_edge "B" "A"] = Return b /\
    kahn_processed 7 [sample_node "A"; sample_node "B"; sample_node "A"]
                     [sample_edge "A" "B"; sample_edge "B" "A"] = Return c.
Proof.
  destruct (check_dag_terminates [sample_node "A"; sample_node "B"; sample_node "A"]
              [sample_edge "A" "B"; sample_edge "B" "A"]) as (b & c & Hrun & _).
  exists b, c. apply Hrun. simpl. lia.
Defined.

(** * Further properties of [check_dag] and [parse_pipeline] *)

(** ** The answer on every request *)

Lemma node_id_set_length_eq_NoDup (ids : list string) :
  List.length (Reference.node_id_set ids) = List.length ids -> NoDup ids.
Proof.
  intros H. apply (@NoDup_incl_NoDup _ (Reference.node_id_set ids)).
  - apply node_id_set_NoDup.
  - lia.
  - intros y Hy. now apply node_id_set_In.
Qed.

(** [check_dag] returns a boolean on every request; it is [true] exactly
    when a list is empty or the ids are distinct and no cycle exists. *)
Lemma check_dag_answer (nodes : list Node.t) (edges : list Edge.t) :
  exists b,
    check_dag nodes edges = Return b /\
    (b = true <->
     nodes = [] \/ edges = [] \/ (NoDup (node_ids nodes) /\ ~ has_cycle nodes edges)).
Proof.
  destruct (check_dag_fuel_returns nodes edges) as (b & c & Hrun & Hc & Hiff & Hb & Hb').
  destruct (Hrun (List.length nodes) (Nat.le_refl _)) as [Hchk _].
  exists b. split; [exact Hchk |].
  destruct nodes as [| n ns]; [split; [auto | intros _; now apply Hb'] |].
  destruct edges as [| e es]; [split; [auto | intros _; now apply Hb'] |].
  rewrite (Hb eq_refl), Z.eqb_eq.
  pose proof (node_id_set_length (node_ids (n :: ns))) as Hle.
  rewrite length_node_ids in Hle.
  split.
  - intros Heq. right. right.
    assert (HK : List.length (Reference.node_id_set (node_ids (n :: ns))) =
                 List.length (node_ids (n :: ns))).
    { rewrite length_node_ids. unfold len in *. lia. }
    split; [now apply node_id_set_length_eq_NoDup |].
    apply Hiff. unfold len in *. rewrite length_node_ids in HK. lia.
  - intros [H | [H | [Hnd Hac]]]; try discriminate.
    apply Hiff in Hac. rewrite Hac. unfold len.
    now rewrite (node_id_set_length_NoDup _ Hnd), length_node_ids.
Qed.

(** X1. The answer of [check_dag] on every request, duplicate ids
    included: a boolean is returned, and it is [True] exactly when the
    node list is empty, or the edge list is empty, or the node ids are
    pairwise distinct and the graph of the valid edges has no cycle. *)
Theorem check_dag_true_iff (nodes : list Node.t) (edges : list Edge.t) :
  exists b,
    check_dag nodes edges = Return b /\
    (b = true <->
     nodes = [] \/ edges = [] \/ (NoDup (node_ids nodes) /\ ~ has_cycle nodes edges)) /\
    (b = false <->
     nodes <> [] /\ edges <> [] /\ ~ (NoDup (node_ids nodes) /\ ~ has_cycle nodes edges)).
Proof.
  destruct (check_dag_answer nodes edges) as (b & Hchk & Hb).
  exists b. split; [exact Hchk |]. split; [exact Hb |].
  split.
  - intros ->. repeat split.
    + intros ->. assert (false = true) by (apply Hb; auto). discriminate.
    + intros ->. assert (false = true) by (apply Hb; auto). discriminate.
    + intros H. assert (false = true) by (apply Hb; auto). discriminate.
  - intros (Hn & He & Hc). destruct b; [| reflexivity].
    destruct (proj1 Hb eq_refl) as [H | [H | H]]; contradiction.
Qed.

(** ** Changing the request *)

Lemma graph_edge_endpoints (nodes : list Node.t) (edges : list Edge.t) (u v : string) :
  graph_edge nodes edges u v <->
  In u (node_ids nodes) /\ In v (node_ids nodes) /\ In (u, v) (map endpoints edges).
Proof. rewrite graph_edge_valid, valid_edges_In. tauto. Qed.

Lemma has_cycle_mono (nodes nodes' : list Node.t) (edges edges' : list Edge.t) :
  (forall x, In x (node_ids nodes) -> In x (node_ids nodes')) ->
  (forall st, In st (map endpoints edges) -> In st (map endpoints edges')) ->
  has_cycle nodes edges -> has_cycle nodes' edges'.
Proof.
  intros Hn He (w & Hw). exists w.
  apply (clos_trans_sub _ (graph_edge nodes edges)); [| exact Hw].
  intros a b Hab. apply t_step. apply graph_edge_endpoints in Hab.
  apply graph_edge_endpoints. intuition auto.
Qed.

Lemma map_endpoints_nil (edges edges' : list Edge.t) :
  (forall st, In st (map endpoints edges') -> In st (map endpoints edges)) ->
  edges = [] -> edges' = [].
Proof.
  intros H ->. destruct edges' as [| e es]; [reflexivity |].
  destruct (H (endpoints e) (or_introl eq_refl)).
Qed.

(** X2. The answer does not depend on the order in which nodes and edges
    are submitted, nor on how often an edge is repeated: permuting the
    nodes and replacing the edges by any list with the same set of
    (source, target) pairs leaves [is_dag] unchanged. *)
Theorem check_dag_order_insensitive (nodes nodes' : list Node.t)
    (edges edges' : list Edge.t) :
  Permutation nodes nodes' ->
  (forall st, In st (map endpoints edges) <-> In st (map endpoints edges')) ->
  check_dag nodes edges = check_dag nodes' edges'.
Proof.
  intros Hp He.
  destruct (check_dag_answer nodes edges) as (b & -> & Hb).
  destruct (check_dag_answer nodes' edges') as (b' & -> & Hb').
  f_equal.
  assert (Hids : Permutation (node_ids nodes) (node_ids nodes'))
    by now apply Permutation_map.
  assert (Hin : forall x, In x (node_ids nodes) <-> In x (node_ids nodes')).
  { intros x. split; apply Permutation_in; [assumption | now apply Permutation_sym]. }
  assert (Hiff : b = true <-> b' = true).
  { rewrite Hb, Hb'. split.
    - intros [-> | [H | [Hnd Hac]]].
      + left. now apply Permutation_nil.
      + right. left. apply (map_endpoints_nil edges edges'); [apply He | exact H].
      + right. right. split; [now apply (Permutation_NoDup Hids) |].
        intros Hc. apply Hac.
        apply (has_cycle_mono nodes' nodes edges' edges); [apply Hin | apply He | exact Hc].
    - intros [-> | [H | [Hnd Hac]]].
      + left. apply Permutation_nil. now apply Permutation_sym.
      + right. left. apply (map_endpoints_nil edges' edges); [apply He | exact H].
      + right. right. split; [now apply (Permutation_NoDup (Permutation_sym Hids)) |].
        intros Hc. apply Hac.
        apply (has_cycle_mono nodes nodes' edges edges'); [apply Hin | apply He | exact Hc]. }
  destruct b, b'; try reflexivity.
  - symmetry. now apply Hiff.
  - now apply Hiff.
Qed.

Lemma check_dag_order_insensitive_witness :
  check_dag [sample_node "A"; sample_node "B"; sample_node "C"]
            [sample_edge "A" "B"; sample_edge "B" "C"] =
  check_dag [sample_node "C"; sample_node "A"; sample_node "B"]
            [sample_edge "B" "C"; sample_edge "A" "B"; sample_edge "B" "C"].
Proof.
  apply check_dag_order_insensitive.
  - apply Permutation_sym.
    apply (Permutation_cons_app [sample_node "A"; sample_node "B"] []
             (sample_node "C")).
    apply Permutation_refl.
  - intros st. simpl. tauto.
Defined.

(** X3. Taking edges away never turns [is_dag] from [True] to [False]:
    when every (source, target) pair of [edges'] occurs in [edges] and
    the request with [edges] is a DAG, so is the request with [edges']. *)
Theorem check_dag_fewer_edges (nodes : list Node.t) (edges edges' : list Edge.t) :
  (forall st, In st (map endpoints edges') -> In st (map endpoints edges)) ->
  check_dag nodes edges = Return true ->
  check_dag nodes edges' = Return true.
Proof.
  intros Hsub Htrue.
  destruct (check_dag_answer nodes edges) as (b & Hchk & Hb).
  destruct (check_dag_answer nodes edges') as (b' & -> & Hb').
  rewrite Hchk in Htrue. inversion Htrue. subst b. f_equal. apply Hb'.
  destruct (proj1 Hb eq_refl) as [H | [H | [Hnd Hac]]].
  - now left.
  - right. left. now apply (map_endpoints_nil edges edges').
  - right. right. split; [assumption |]. intros Hc. apply Hac.
    now apply (has_cycle_mono nodes nodes edges' edges).
Qed.

Lemma check_dag_fewer_edges_witness :
  check_dag [sample_node "A"; sample_node "B"; sample_node "C"]
            [sample_edge "A" "C"] = Return true.
Proof.
  apply (check_dag_fewer_edges
           [sample_node "A"; sample_node "B"; sample_node "C"]
           [sample_edge "A" "B"; sample_edge "A" "C"; sample_edge "B" "C"]).
  - intros st. simpl. tauto.
  - reflexivity.
Defined.

(** X4. An edge from a node to itself makes any request fail the check:
    if some submitted edge has the same source and target and that id is
    a node id, [is_dag] is [False], whatever else is submitted. *)
Theorem check_dag_self_loop (nodes : list Node.t) (edges : list Edge.t) (e : Edge.t) :
  In e edges -> Edge.source e = Edge.target e ->
  In (Edge.source e) (node_ids nodes) ->
  check_dag nodes edges = Return false.
Proof.
  intros He Hst Hs.
  destruct (check_dag_answer nodes edges) as (b & -> & Hb). f_equal.
  destruct b; [| reflexivity].
  destruct (proj1 Hb eq_refl) as [-> | [-> | [_ Hac]]].
  - destruct Hs.
  - destruct He.
  - exfalso. apply Hac. exists (Edge.source e). apply t_step.
    split; [assumption |]. split; [now rewrite Hst at 1; rewrite <- Hst |].
    now exists e.
Qed.

Lemma check_dag_self_loop_witness :
  check_dag [sample_node "A"; sample_node "B"; sample_node "C"]
            [sample_edge "A" "B"; sample_edge "C" "C"] = Return false.
Proof.
  apply (check_dag_self_loop
           [sample_node "A"; sample_node "B"; sample_node "C"]
           [sample_edge "A" "B"; sample_edge "C" "C"] (sample_edge "C" "C")).
  - simpl. tauto.
  - reflexivity.
  - simpl. tauto.
Defined.

Lemma build_graph_without_dangling (nodes : list Node.t) (es1 es2 : list Edge.t)
    (e : Edge.t) :
  dangling nodes e ->
  build_graph nodes (es1 ++ e :: es2) = build_graph nodes (es1 ++ es2).
Proof.
  intros Hd. unfold build_graph. rewrite !for_each_app.
  destruct (init_nodes_represents nodes) as (g & d & -> & HG & HD).
  destruct (add_edges_represents _ es1 _ _ _ _ HG HD) as (g' & d' & -> & HG' & _).
  cbn [bind for_each]. rewrite (add_edge_dangling _ g' d' _ e HG'); [reflexivity |].
  unfold dangling in Hd. now rewrite !node_id_set_In.
Qed.

(** X5. Removing a dangling edge from a request changes nothing in the
    run of the work queue: the processed count is the same for every
    bound on the iterations. When other edges remain, [is_dag] is the
    same too. *)
Theorem dangling_edge_removal (nodes : list Node.t) (es1 es2 : list Edge.t) (e : Edge.t) :
  dangling nodes e ->
  (forall fuel, kahn_processed fuel nodes (es1 ++ e :: es2) =
                kahn_processed fuel nodes (es1 ++ es2)) /\
  (es1 ++ es2 <> [] ->
   check_dag nodes (es1 ++ e :: es2) = check_dag nodes (es1 ++ es2)).
Proof.
  intros Hd.
  assert (Hk : forall fuel, kahn_processed fuel nodes (es1 ++ e :: es2) =
                            kahn_processed fuel nodes (es1 ++ es2)).
  { intros fuel. unfold kahn_processed. now rewrite build_graph_without_dangling. }
  split; [exact Hk |]. intros Hne.
  unfold check_dag, check_dag_fuel. rewrite Hk.
  replace (is_empty (es1 ++ e :: es2)) with (is_empty (es1 ++ es2)); [reflexivity |].
  destruct es1; [destruct es2; [exfalso; now apply Hne | reflexivity] | reflexivity].
Qed.

Lemma dangling_edge_removal_witness :
  check_dag [sample_node "A"; sample_node "A"; sample_node "B"]
            ([sample_edge "A" "B"] ++ sample_edge "B" "Z" :: [sample_edge "B" "A"]) =
  check_dag [sample_node "A"; sample_node "A"; sample_node "B"]
            ([sample_edge "A" "B"] ++ [sample_edge "B" "A"]).
Proof.
  apply (dangling_edge_removal [sample_node "A"; sample_node "A"; sample_node "B"]
           [sample_edge "A" "B"] [sample_edge "B" "A"] (sample_edge "B" "Z")).
  - right. simpl. intuition discriminate.
  - discriminate.
Defined.

(** ** What [build_graph] leaves in the two mappings *)

Lemma fold_add_id_NoDup (ids : list string) :
  forall acc, NoDup (acc ++ ids) -> fold_left Reference.add_id ids acc = acc ++ ids.
Proof.
  induction ids as [| x ids IH]; intros acc Hnd; simpl.
  - now rewrite app_nil_r.
  - assert (Hx : ~ In x acc).
    { intros Hx. apply NoDup_remove_2 in Hnd. apply Hnd. apply in_app_iff. now left. }
    unfold Reference.add_id at 2. apply mem_false in Hx. rewrite Hx.
    rewrite IH; rewrite <- app_assoc; [reflexivity | exact Hnd].
Qed.

Lemma node_id_set_of_NoDup (ids : list string) :
  NoDup ids -> Reference.node_id_set ids = ids.
Proof. intros H. apply (fold_add_id_NoDup ids []). exact H. Qed.

Lemma is_valid_spec (nodes : list Node.t) (e : Edge.t) :
  is_valid nodes e = true <->
  In (Edge.source e) (node_ids nodes) /\ In (Edge.target e) (node_ids nodes).
Proof. unfold is_valid. now rewrite andb_true_iff, !mem_In. Qed.

Lemma valid_edges_cons (nodes : list Node.t) (e : Edge.t) (es : list Edge.t) :
  Reference.valid_edges (node_ids nodes) (map endpoints (e :: es)) =
  if is_valid nodes e
  then (Edge.source e, Edge.target e) ::
       Reference.valid_edges (node_ids nodes) (map endpoints es)
  else Reference.valid_edges (node_ids nodes) (map endpoints es).
Proof. reflexivity. Qed.

Lemma neighbors_of_edges (nodes : list Node.t) (edges : list Edge.t) (k : string) :
  Reference.neighbors (Reference.valid_edges (node_ids nodes) (map endpoints edges)) k =
  map Edge.target
    (filter (fun e => is_valid nodes e && String.eqb (Edge.source e) k) edges).
Proof.
  induction edges as [| e es IH]; [reflexivity |].
  rewrite valid_edges_cons. cbn [filter].
  destruct (is_valid nodes e); cbn [andb]; [| exact IH].
  rewrite neighbors_cons. destruct (String.eqb (Edge.source e) k); cbn [map];
    now rewrite IH.
Qed.

Lemma in_degree_of_edges (nodes : list Node.t) (edges : list Edge.t) (k : string) :
  Reference.in_degree (Reference.valid_edges (node_ids nodes) (map endpoints edges)) k =
  len (filter (fun e => is_valid nodes e && String.eqb (Edge.target e) k) edges).
Proof.
  induction edges as [| e es IH]; [reflexivity |].
  rewrite valid_edges_cons. cbn [filter].
  destruct (is_valid nodes e); cbn [andb]; [| exact IH].
  rewrite in_degree_cons. destruct (String.eqb (Edge.target e) k);
    rewrite ?len_cons; now rewrite IH.
Qed.

(** X6. Building the mappings never raises. [graph] and [in_degree] get
    the same keys: every node id once, in the order of first occurrence,
    which is the node order itself when the ids are distinct; a later
    node with an id already seen adds no key and moves none. *)
Theorem build_graph_keys (nodes : list Node.t) (edges : list Edge.t) :
  exists graph in_degree,
    build_graph nodes edges = Return (graph, in_degree) /\
    PyDict.keys graph = PyDict.keys in_degree /\
    PyDict.keys graph = Reference.node_id_set (node_ids nodes) /\
    NoDup (PyDict.keys graph) /\
    (forall k, In k (PyDict.keys graph) <-> In k (node_ids nodes)) /\
    (List.length (PyDict.keys graph) <= List.length nodes)%nat /\
    (NoDup (node_ids nodes) -> PyDict.keys graph = node_ids nodes).
Proof.
  destruct (build_graph_represents nodes edges) as (g & d & Hb & [HG _] & [HD _]).
  exists g, d. split; [exact Hb |]. rewrite HG, HD.
  split; [reflexivity |]. split; [reflexivity |]. split; [apply node_id_set_NoDup |].
  split; [apply node_id_set_In |]. split.
  - rewrite <- (length_node_ids nodes). apply node_id_set_length.
  - apply node_id_set_of_NoDup.
Qed.

(** X7. After the edge loop, [graph[k]] lists, in submission order, the
    targets of the edges that leave [k] and have both ends among the node
    ids, and [in_degree[k]] is the number of such edges that arrive at
    [k], repeated edges counted as often as submitted; ids that are no
    node id are no keys. *)
Theorem build_graph_contents (nodes : list Node.t) (edges : list Edge.t) :
  exists graph in_degree,
    build_graph nodes edges = Return (graph, in_degree) /\
    (forall k, In k (node_ids nodes) ->
       PyDict.get graph k =
         Some (map Edge.target
                 (filter (fun e => is_valid nodes e && String.eqb (Edge.source e) k) edges)) /\
       PyDict.get in_degree k =
         Some (len (filter (fun e => is_valid nodes e && String.eqb (Edge.target e) k)
                      edges))) /\
    (forall k, ~ In k (node_ids nodes) ->
       PyDict.get graph k = None /\ PyDict.get in_degree k = None).
Proof.
  destruct (build_graph_represents nodes edges) as (g & d & Hb & [HGk HG] & [HDk HD]).
  exists g, d. split; [exact Hb |]. split.
  - intros k Hk. apply node_id_set_In in Hk.
    rewrite (HG k Hk), (HD k Hk), neighbors_of_edges, in_degree_of_edges. auto.
  - intros k Hk. split; apply get_None.
    + rewrite HGk. now rewrite node_id_set_In.
    + rewrite HDk. now rewrite node_id_set_In.
Qed.

Lemma values_of_represents {V : Type} (d : PyDict.t V) (f : string -> V) :
  NoDup (PyDict.keys d) ->
  (forall k, In k (PyDict.keys d) -> PyDict.get d k = Some (f k)) ->
  map snd d = map f (PyDict.keys d).
Proof.
  unfold PyDict.keys. induction d as [| [k0 v0] d IH]; intros Hnd Hf; [reflexivity |].
  simpl in *. inversion Hnd as [| ? ? Hk0 Hnd']. subst.
  f_equal.
  - specialize (Hf k0 (or_introl eq_refl)). rewrite String.eqb_refl in Hf. congruence.
  - apply IH; [assumption |]. intros k Hk. specialize (Hf k (or_intror Hk)).
    destruct (String.eqb_spec k0 k) as [-> | Hne]; [contradiction | exact Hf].
Qed.

Lemma sum_bump (t : string) (f : string -> Z) (K : list string) :
  NoDup K ->
  fold_right Z.add 0 (map (fun v => if String.eqb t v then f v + 1 else f v) K) =
  fold_right Z.add 0 (map f K) + (if Reference.mem t K then 1 else 0).
Proof.
  induction K as [| k K IH]; intros Hnd; [reflexivity |].
  inversion Hnd as [| ? ? Hk Hnd']. subst. cbn [map fold_right].
  rewrite (IH Hnd'), mem_cons.
  destruct (String.eqb_spec t k) as [-> | Hne]; cbn [orb].
  - apply mem_false in Hk. rewrite Hk. lia.
  - lia.
Qed.

Lemma sum_in_degree (K : list string) (E : list (string * string)) :
  NoDup K -> (forall u v, In (u, v) E -> In u K /\ In v K) ->
  fold_right Z.add 0 (map (Reference.in_degree E) K) = len E /\
  fold_right Z.add 0 (map (fun k => len (Reference.neighbors E k)) K) = len E.
Proof.
  intros Hnd. induction E as [| [s t] E IH]; intros HE.
  - clear Hnd HE. split; induction K as [| k K IHK]; try reflexivity.
    + cbn [map fold_right]. rewrite IHK. reflexivity.
    + cbn [map fold_right]. rewrite IHK. reflexivity.
  - destruct IH as [IH1 IH2]; [intros u v H; apply HE; now right |].
    destruct (HE s t (or_introl eq_refl)) as [Hs Ht]. apply mem_In in Hs, Ht.
    rewrite len_cons. split.
    + rewrite (map_ext _ (fun v => if String.eqb t v then Reference.in_degree E v + 1
                                   else Reference.in_degree E v))
        by (intros v; apply in_degree_cons).
      rewrite sum_bump by assumption. rewrite Ht, IH1. reflexivity.
    + rewrite (map_ext _ (fun v => if String.eqb s v
                                   then len (Reference.neighbors E v) + 1
                                   else len (Reference.neighbors E v))).
      * rewrite (sum_bump s (fun v => len (Reference.neighbors E v))) by assumption.
        rewrite Hs, IH2. reflexivity.
      * intros v. rewrite neighbors_cons.
        destruct (String.eqb s v); [apply len_cons | reflexivity].
Qed.

Lemma valid_edges_length (nodes : list Node.t) (edges : list Edge.t) :
  len (Reference.valid_edges (node_ids nodes) (map endpoints edges)) =
  len (filter (is_valid nodes) edges).
Proof.
  induction edges as [| e es IH]; [reflexivity |].
  rewrite valid_edges_cons. cbn [filter].
  destruct (is_valid nodes e); rewrite ?len_cons; now rewrite IH.
Qed.

(** X8. The two mappings agree with each other: the sum of all
    in-degrees, the total length of all adjacency lists and the number of
    submitted edges with both ends among the node ids are the same
    number. *)
Theorem build_graph_degree_sum (nodes : list Node.t) (edges : list Edge.t) :
  exists graph in_degree,
    build_graph nodes edges = Return (graph, in_degree) /\
    total_in_degree in_degree = len (filter (is_valid nodes) edges) /\
    total_adjacency graph = len (filter (is_valid nodes) edges) /\
    len (filter (is_valid nodes) edges) <= len edges.
Proof.
  destruct (build_graph_represents nodes edges) as (g & d & Hb & [HGk HG] & [HDk HD]).
  set (K := Reference.node_id_set (node_ids nodes)) in *.
  set (E := Reference.valid_edges (node_ids nodes) (map endpoints edges)) in *.
  assert (HK : NoDup K) by apply node_id_set_NoDup.
  assert (HE : forall u v, In (u, v) E -> In u K /\ In v K).
  { intros u v H. apply valid_edges_In in H. unfold K. rewrite !node_id_set_In. tauto. }
  destruct (sum_in_degree K E HK HE) as [Hin Hout].
  exists g, d. split; [exact Hb |]. rewrite <- valid_edges_length. fold E.
  split; [| split].
  - unfold total_in_degree.
    rewrite (values_of_represents d (Reference.in_degree E)); rewrite HDk; auto.
  - unfold total_adjacency. rewrite <- (map_map snd (fun l => len l)).
    rewrite (values_of_represents g (Reference.neighbors E)); rewrite HGk; auto.
    now rewrite map_map.
  - unfold E. rewrite valid_edges_length. unfold len.
    pose proof (filter_length_le (is_valid nodes) edges). lia.
Qed.

Lemma in_degree_zero_iff (E : list (string * string)) (k : string) :
  Reference.in_degree E k = 0 <-> forall u, ~ In (u, k) E.
Proof.
  rewrite <- remaining_nil. split.
  - intros H u Hu. apply (remaining_zero E [] k H u Hu).
  - intros H. destruct (Z.eq_dec (remaining E [] k) 0) as [Hz | Hz]; [exact Hz |].
    destruct (remaining_pos E [] k Hz) as (u & Hu & _). destruct (H u Hu).
Qed.

(** X9. The queue starts with exactly the node ids that no valid edge
    arrives at, each once, in the order of the keys: an id is seeded if
    and only if it is a node id without an incoming edge of the graph. *)
Theorem seed_queue_sources (nodes : list Node.t) (edges : list Edge.t) :
  exists graph in_degree queue,
    build_graph nodes edges = Return (graph, in_degree) /\
    seed_queue in_degree = Return queue /\
    queue = filter (fun k => negb (existsb (fun e => is_valid nodes e &&
                                                     String.eqb (Edge.target e) k) edges))
              (PyDict.keys in_degree) /\
    NoDup queue /\
    (forall k, In k queue <->
               In k (node_ids nodes) /\ forall u, ~ graph_edge nodes edges u k).
Proof.
  destruct (build_graph_represents nodes edges) as (g & d & Hb & _ & HD).
  set (K := Reference.node_id_set (node_ids nodes)) in *.
  set (E := Reference.valid_edges (node_ids nodes) (map endpoints edges)) in *.
  exists g, d, (filter (fun v => Reference.in_degree E v =? 0) K).
  split; [exact Hb |]. split; [now apply (seed_queue_represents K d) |].
  assert (Hzero : forall k, (Reference.in_degree E k =? 0) = true <->
                            forall u, ~ graph_edge nodes edges u k).
  { intros k. rewrite Z.eqb_eq, in_degree_zero_iff.
    split; intros H u Hu; apply (H u); now apply graph_edge_valid. }
  split; [| split].
  - destruct HD as [-> _]. apply filter_ext. intros k.
    unfold E. rewrite in_degree_of_edges.
    destruct (existsb _ edges) eqn:Hex; simpl.
    + apply existsb_exists in Hex. destruct Hex as (e & He & Hv).
      apply Z.eqb_neq. intros Hz. apply len_zero in Hz.
      assert (Hin : In e (filter (fun e => is_valid nodes e &&
                                           String.eqb (Edge.target e) k) edges))
        by (apply filter_In; auto).
      rewrite Hz in Hin. destruct Hin.
    + apply Z.eqb_eq.
      destruct (filter _ edges) as [| e l] eqn:Hf; [reflexivity |].
      assert (Hin : In e (filter (fun e => is_valid nodes e &&
                                           String.eqb (Edge.target e) k) edges))
        by (rewrite Hf; now left).
      apply filter_In in Hin. destruct Hin as [Hin Hv].
      assert (Htrue : existsb (fun e => is_valid nodes e &&
                                        String.eqb (Edge.target e) k) edges = true)
        by (apply existsb_exists; now exists e).
      congruence.
  - apply NoDup_filter, node_id_set_NoDup.
  - intros k. rewrite filter_In, Hzero. unfold K. now rewrite node_id_set_In.
Qed.

(** ** The order in which nodes are processed *)

(** The nodes the loop processes, newest first: a duplicate-free list of
    node ids in which every valid edge into a member comes from a member
    processed earlier, and which holds every id whose predecessors it
    holds. *)
Lemma kahn_processed_order (nodes : list Node.t) (edges : list Edge.t) :
  let K := Reference.node_id_set (node_ids nodes) in
  let E := Reference.valid_edges (node_ids nodes) (map endpoints edges) in
  exists done,
    (forall fuel, (List.length nodes <= fuel)%nat ->
       kahn_processed fuel nodes edges = Return (len done)) /\
    NoDup done /\ incl done K /\ topological E done /\
    (forall v, In v K -> remaining E done v = 0 -> In v done).
Proof.
  intros K E.
  assert (HE : forall u v, In (u, v) E -> In u K /\ In v K).
  { intros u v H. apply valid_edges_In in H. unfold K. rewrite !node_id_set_In. tauto. }
  destruct (loop_runs K E HE (List.length K) [] _ _
              (kahn_inv_init K E (node_id_set_NoDup _)))
    as (done & Hrun & Hrest); [simpl; lia |].
  change (len (@nil string)) with 0 in Hrun.
  exists done. split; [| exact Hrest].
  intros fuel Hfuel. rewrite kahn_processed_refines. unfold Reference.kahn.
  fold E. fold K. rewrite (loop_fuel_mono _ _ _ _ _ _ Hrun); [reflexivity |].
  pose proof (node_id_set_length (node_ids nodes)) as Hle.
  rewrite length_node_ids in Hle. fold K in Hle. lia.
Qed.

Lemma rank_in_le (l : list string) (v : string) :
  (rank_in l v <= List.length l)%nat.
Proof.
  induction l as [| x l IH]; simpl; [lia |].
  destruct (String.eqb x v); lia.
Qed.

Lemma topological_rank (E : list (string * string)) (l : list string) :
  topological E l -> NoDup l ->
  forall u v, In v l -> In (u, v) E -> (rank_in l u < rank_in l v)%nat.
Proof.
  induction l as [| x l IH]; intros Ht Hnd u v Hv Huv; [destruct Hv |].
  destruct Ht as [Hx Ht]. inversion Hnd as [| ? ? Hxl Hnd']. subst. simpl.
  destruct (String.eqb_spec x v) as [-> | Hxv].
  - assert (Hu : In u l) by now apply Hx.
    destruct (String.eqb_spec v u) as [-> | Hvu]; [contradiction |].
    pose proof (rank_in_le l u). lia.
  - destruct Hv as [-> | Hv]; [congruence |].
    assert (Hu : In u l).
    { apply (topological_closed E l Ht u v); [now apply t_step | exact Hv]. }
    destruct (String.eqb_spec x u) as [-> | Hxu]; [contradiction |].
    now apply IH.
Qed.

Lemma rank_no_cycle (nodes : list Node.t) (edges : list Edge.t) (rank : string -> nat) :
  (forall u v, graph_edge nodes edges u v -> (rank u < rank v)%nat) ->
  ~ has_cycle nodes edges.
Proof.
  intros Hrank (w & Hw).
  assert (H : forall a b, clos_trans string (graph_edge nodes edges) a b ->
                          (rank a < rank b)%nat).
  { intros a b Hab. induction Hab as [a b Hab | a b c _ IH1 _ IH2]; [auto | lia]. }
  specialize (H w w Hw). lia.
Qed.

(** X10. With pairwise distinct node ids, [is_dag] is [True] exactly when
    the nodes can be numbered so that every edge of the graph goes from a
    smaller number to a larger one. *)
Theorem check_dag_true_iff_numbering (nodes : list Node.t) (edges : list Edge.t) :
  NoDup (node_ids nodes) ->
  (check_dag nodes edges = Return true <->
   exists rank : string -> nat,
     forall u v, graph_edge nodes edges u v -> (rank u < rank v)%nat).
Proof.
  intros Hnd. split.
  - intros Htrue.
    destruct (kahn_processed_order nodes edges)
      as (done & Hrun & Hndd & Hincl & Htopo & _).
    destruct (check_dag_fuel_returns nodes edges) as (b & c & Hrun' & _ & _ & Hb & _).
    destruct (Hrun' (List.length nodes) (Nat.le_refl _)) as [Hchk Hk].
    unfold check_dag in Htrue. rewrite Hchk in Htrue. inversion Htrue. subst b.
    rewrite (Hrun (List.length nodes) (Nat.le_refl _)) in Hk. inversion Hk. subst c.
    destruct nodes as [| n ns].
    { exists (fun _ => O). intros u v (Hu & _). destruct Hu. }
    destruct edges as [| e es].
    { exists (fun _ => O). intros u v (_ & _ & e & He & _). destruct He. }
    symmetry in Hb. specialize (Hb eq_refl). apply Z.eqb_eq in Hb.
    assert (Hall : incl (Reference.node_id_set (node_ids (n :: ns))) done).
    { apply NoDup_length_incl; [assumption | | assumption].
      pose proof (node_id_set_length (node_ids (n :: ns))) as Hle.
      rewrite length_node_ids in Hle. unfold len in Hb. lia. }
    exists (rank_in done). intros u v Huv.
    apply (topological_rank _ done Htopo Hndd).
    + apply Hall. apply node_id_set_In. apply Huv.
    + now apply graph_edge_valid.
  - intros (rank & Hrank).
    destruct (check_dag_answer nodes edges) as (b & -> & Hb). f_equal. apply Hb.
    right. right. split; [assumption |]. now apply (rank_no_cycle nodes edges rank).
Qed.

Lemma check_dag_true_iff_numbering_witness :
  NoDup (node_ids [sample_node "A"; sample_node "B"; sample_node "C"]) /\
  (check_dag [sample_node "A"; sample_node "B"; sample_node "C"]
             [sample_edge "A" "C"; sample_edge "C" "B"] = Return true <->
   exists rank : string -> nat,
     forall u v, graph_edge [sample_node "A"; sample_node "B"; sample_node "C"]
                            [sample_edge "A" "C"; sample_edge "C" "B"] u v ->
                 (rank u < rank v)%nat).
Proof.
  assert (H : NoDup (node_ids [sample_node "A"; sample_node "B"; sample_node "C"])).
  { simpl. repeat constructor; simpl; intuition discriminate. }
  split; [exact H |].
  exact (check_dag_true_iff_numbering
           [sample_node "A"; sample_node "B"; sample_node "C"]
           [sample_edge "A" "C"; sample_edge "C" "B"] H).
Defined.

(** X11. On every request, duplicate ids included, the processed counter
    ends at the number of keys of [graph], that is of distinct node ids,
    exactly when the graph has no cycle, and below it otherwise. *)
Theorem processed_count_distinct_ids (nodes : list Node.t) (edges : list Edge.t) :
  exists graph in_degree c,
    build_graph nodes edges = Return (graph, in_degree) /\
    (forall fuel, (List.length nodes <= fuel)%nat ->
       kahn_processed fuel nodes edges = Return c) /\
    0 <= c <= len (PyDict.keys graph) /\
    (c = len (PyDict.keys graph) <-> ~ has_cycle nodes edges).
Proof.
  destruct (build_graph_represents nodes edges) as (g & d & Hb & [HG _] & _).
  destruct (kahn_processed_spec nodes edges) as (c & Hrun & Hc & Hiff).
  exists g, d, c. rewrite HG. auto.
Qed.

(** ** Reversing and renaming *)

Lemma check_dag_same_answer (nodes nodes' : list Node.t) (edges edges' : list Edge.t) :
  (nodes = [] <-> nodes' = []) ->
  (edges = [] <-> edges' = []) ->
  (NoDup (node_ids nodes) <-> NoDup (node_ids nodes')) ->
  (has_cycle nodes edges <-> has_cycle nodes' edges') ->
  check_dag nodes edges = check_dag nodes' edges'.
Proof.
  intros Hn He Hnd Hc.
  destruct (check_dag_answer nodes edges) as (b & -> & Hb).
  destruct (check_dag_answer nodes' edges') as (b' & -> & Hb').
  f_equal.
  assert (Hiff : b = true <-> b' = true) by (rewrite Hb, Hb'; tauto).
  destruct b, b'; try reflexivity.
  - symmetry. now apply Hiff.
  - now apply Hiff.
Qed.

Lemma clos_trans_flip (R R' : string -> string -> Prop) :
  (forall a b, R' a b -> R b a) ->
  forall a b, clos_trans string R' a b -> clos_trans string R b a.
Proof.
  intros Hflip a b H. induction H as [a b H | a b c _ IH1 _ IH2].
  - apply t_step. now apply Hflip.
  - now apply t_trans with b.
Qed.

Lemma graph_edge_reverse (nodes : list Node.t) (edges : list Edge.t) (u v : string) :
  graph_edge nodes (map reverse_edge edges) u v <-> graph_edge nodes edges v u.
Proof.
  unfold graph_edge. split.
  - intros (Hu & Hv & e' & He' & Hs & Ht). apply in_map_iff in He'.
    destruct He' as (e & <- & He). simpl in *. repeat split; try assumption.
    now exists e.
  - intros (Hv & Hu & e & He & Hs & Ht). repeat split; try assumption.
    exists (reverse_edge e). split; [now apply in_map |]. simpl. auto.
Qed.

(** X12. Turning every edge around does not change the answer: a request
    and the request with all sources and targets swapped get the same
    [is_dag]. *)
Theorem check_dag_reverse_edges (nodes : list Node.t) (edges : list Edge.t) :
  check_dag nodes (map reverse_edge edges) = check_dag nodes edges.
Proof.
  apply check_dag_same_answer; try tauto.
  - destruct edges; simpl; split; intros H; congruence.
  - split; intros (w & Hw); exists w.
    + apply (clos_trans_flip _ (graph_edge nodes (map reverse_edge edges))); [| exact Hw].
      intros a b. apply graph_edge_reverse.
    + apply (clos_trans_flip _ (graph_edge nodes edges)); [| exact Hw].
      intros a b Hab. now apply graph_edge_reverse.
Qed.

Lemma graph_edge_rename (f : string -> string) (nodes : list Node.t) (edges : list Edge.t)
    (u v : string) :
  graph_edge nodes edges u v ->
  graph_edge (map (rename_node f) nodes) (map (rename_edge f) edges) (f u) (f v).
Proof.
  intros (Hu & Hv & e & He & Hs & Ht). unfold graph_edge, node_ids in *.
  rewrite map_map. simpl. rewrite <- (map_map Node.id f).
  repeat split; try now apply in_map.
  exists (rename_edge f e). split; [now apply in_map |]. simpl. now subst.
Qed.

Lemma graph_edge_rename_inv (f : string -> string) (nodes : list Node.t)
    (edges : list Edge.t) :
  (forall x y, f x = f y -> x = y) ->
  forall u v', graph_edge (map (rename_node f) nodes) (map (rename_edge f) edges) (f u) v' ->
  exists v, v' = f v /\ graph_edge nodes edges u v.
Proof.
  intros Hinj u v' (Hu & Hv & e' & He' & Hs & Ht).
  unfold node_ids in *. rewrite map_map in Hu, Hv. simpl in Hu, Hv.
  apply in_map_iff in Hu, Hv, He'.
  destruct Hu as (nu & Hnu & Hinu). destruct Hv as (nv & Hnv & Hinv).
  destruct He' as (e & <- & He). simpl in Hs, Ht.
  apply Hinj in Hnu, Hs.
  exists (Edge.target e). split; [congruence |].
  assert (Htv : Edge.target e = Node.id nv) by (apply Hinj; congruence).
  unfold graph_edge, node_ids. repeat split.
  - rewrite <- Hnu. now apply in_map.
  - rewrite Htv. now apply in_map.
  - now exists e.
Qed.

Lemma clos_trans_first_step (R : string -> string -> Prop) (a b : string) :
  clos_trans string R a b -> exists y, R a y.
Proof. intros H. induction H as [a b H | a b c _ IH _ _]; [now exists b | exact IH]. Qed.

Lemma NoDup_map_injective (f : string -> string) (l : list string) :
  (forall x y, f x = f y -> x = y) -> NoDup l -> NoDup (map f l).
Proof.
  intros Hinj H. induction H as [| x l Hx Hnd IH]; simpl; constructor; [| exact IH].
  intros Hin. apply in_map_iff in Hin. destruct Hin as (y & Hy & Hyl).
  apply Hinj in Hy. now subst.
Qed.

(** X13. The ids are labels only: renaming them by any one-to-one map,
    in the nodes and in the sources and targets of the edges, does not
    change the answer. *)
Theorem check_dag_rename (f : string -> string) (nodes : list Node.t)
    (edges : list Edge.t) :
  (forall x y, f x = f y -> x = y) ->
  check_dag (map (rename_node f) nodes) (map (rename_edge f) edges) =
  check_dag nodes edges.
Proof.
  intros Hinj. apply check_dag_same_answer.
  - destruct nodes; simpl; split; intros H; congruence.
  - destruct edges; simpl; split; intros H; congruence.
  - unfold node_ids. rewrite map_map. simpl. rewrite <- (map_map Node.id f). split.
    + apply NoDup_map_inv.
    + now apply NoDup_map_injective.
  - split.
    + intros (w' & Hw').
      assert (Hsrc : exists w, w' = f w).
      { destruct (clos_trans_first_step _ _ _ Hw') as (y & Hu & _).
        unfold node_ids in Hu. rewrite map_map in Hu. apply in_map_iff in Hu.
        destruct Hu as (n & Hn & _). now exists (Node.id n). }
      destruct Hsrc as (w & ->).
      assert (Hpull : forall a' b', clos_trans string
                 (graph_edge (map (rename_node f) nodes) (map (rename_edge f) edges)) a' b' ->
                 forall a, a' = f a ->
                 exists b, b' = f b /\ clos_trans string (graph_edge nodes edges) a b).
      { intros a' b' H. induction H as [a' b' H | a' b' c' _ IH1 _ IH2]; intros a ->.
        - destruct (graph_edge_rename_inv f nodes edges Hinj a b' H) as (b & -> & Hab).
          exists b. split; [reflexivity | now apply t_step].
        - destruct (IH1 a eq_refl) as (b & -> & Hab).
          destruct (IH2 b eq_refl) as (c & -> & Hbc).
          exists c. split; [reflexivity | now apply t_trans with b]. }
      destruct (Hpull _ _ Hw' w eq_refl) as (b & Hb & Hwb).
      apply Hinj in Hb. subst b. now exists w.
    + intros (w & Hw). exists (f w).
      assert (Hpush : forall a b, clos_trans string (graph_edge nodes edges) a b ->
                 clos_trans string
                   (graph_edge (map (rename_node f) nodes) (map (rename_edge f) edges))
                   (f a) (f b)).
      { intros a b H. induction H as [a b H | a b c _ IH1 _ IH2].
        - apply t_step. now apply graph_edge_rename.
        - now apply t_trans with (f b). }
      now apply Hpush.
Qed.

Lemma check_dag_rename_witness :
  check_dag (map (rename_node (fun s => ("n" ++ s)%string))
                 [sample_node "A"; sample_node "B"])
            (map (rename_edge (fun s => ("n" ++ s)%string))
                 [sample_edge "A" "B"; sample_edge "B" "A"]) =
  check_dag [sample_node "A"; sample_node "B"] [sample_edge "A" "B"; sample_edge "B" "A"].
Proof.
  apply (check_dag_rename (fun s => ("n" ++ s)%string)).
  intros x y H. simpl in H. inversion H. reflexivity.
Defined.

Lemma build_graph_keys_witness :
  (exists graph in_degree,
     build_graph [sample_node "B"; sample_node "A"; sample_node "B"; sample_node "C"]
                 [sample_edge "A" "B"] = Return (graph, in_degree) /\
     PyDict.keys graph = ["B"; "A"; "C"]) /\
  (exists graph in_degree,
     build_graph [sample_node "B"; sample_node "A"] [sample_edge "A" "B"] =
       Return (graph, in_degree) /\
     PyDict.keys graph = ["B"; "A"]).
Proof.
  split.
  - destruct (build_graph_keys
                [sample_node "B"; sample_node "A"; sample_node "B"; sample_node "C"]
                [sample_edge "A" "B"])
      as (g & d & Hb & _ & Hk & _).
    exists g, d. split; [exact Hb | exact Hk].
  - destruct (build_graph_keys [sample_node "B"; sample_node "A"] [sample_edge "A" "B"])
      as (g & d & Hb & _ & _ & _ & _ & _ & Hk).
    exists g, d. split; [exact Hb |]. apply Hk.
    simpl. repeat constructor; simpl; intuition discriminate.
Defined.

Lemma processed_count_distinct_ids_witness :
  exists c,
    kahn_processed 5 [sample_node "A"; sample_node "A"; sample_node "B"]
                     [sample_edge "A" "B"] = Return c.
Proof.
  destruct (processed_count_distinct_ids
              [sample_node "A"; sample_node "A"; sample_node "B"] [sample_edge "A" "B"])
    as (g & d & c & _ & Hrun & _).
  exists c. apply Hrun. simpl. lia.
Defined.
